(** * URL expander: a model of [main.cpp] and its resolution contract

    The program resolves a URL by one HEAD request on a shared libcurl
    handle, following redirects up to a cap, and reports either the final
    URL, the next hop after the cap, or the transport's error code.  It
    runs as a Lambda handler (JSON in, JSON out) or as a batch tool reading
    lines from standard input.

    The development embeds [expand_url], [expand_url_handler], [split] and
    [main] as state-passing functions over the process state (the shared
    handle, the three configuration globals, the clock and the two output
    streams).  libcurl, the JSON library and the C/C++ string conversions
    are outside the repository: libcurl and the JSON accessors are an
    interface the code is parametric in, with one concrete transport that
    serves redirect chains. *)

From Stdlib Require Import ZArith String Ascii List Lia.
From stdpp Require Import gmap strings.
Import ListNotations.

Local Open Scope Z_scope.

(** ** Machine integers *)

(** Conversion of an integer to a signed [w]-bit one, wrapping around. *)
Definition wrap_signed (w : Z) (z : Z) : Z :=
  (z + 2 ^ (w - 1)) mod 2 ^ w - 2 ^ (w - 1).

(** [int] is 32 bits, [long], [long long] and [int64_t] are 64 bits (LP64). *)
Definition to_int (z : Z) : Z := wrap_signed 32 z.
Definition to_long (z : Z) : Z := wrap_signed 64 z.

Definition INT_MIN : Z := - 2 ^ 31.
Definition INT_MAX : Z := 2 ^ 31 - 1.
Definition LLONG_MIN : Z := - 2 ^ 63.
Definition LLONG_MAX : Z := 2 ^ 63 - 1.

Definition in_int (z : Z) : Prop := INT_MIN <= z <= INT_MAX.
Definition in_long (z : Z) : Prop := LLONG_MIN <= z <= LLONG_MAX.

(** ** libcurl: codes, options and the easy handle *)

(** [CURLcode] is a C enum; the handler writes it out as a number. *)
Definition CURLcode : Type := Z.

Definition CURLE_OK : CURLcode := 0.
Definition CURLE_FAILED_INIT : CURLcode := 2.
Definition CURLE_COULDNT_CONNECT : CURLcode := 7.
Definition CURLE_OPERATION_TIMEDOUT : CURLcode := 28.
Definition CURLE_TOO_MANY_REDIRECTS : CURLcode := 47.

(** [do_nothing]: the write callback, which claims to have consumed
    everything ([size_t] arithmetic, 64 bits unsigned). *)
Definition do_nothing (size nmemb : Z) : Z := (size * nmemb) mod 2 ^ 64.

(** The options the program sets, each with the value it carries. *)
Inductive CURLoption : Type :=
| CURLOPT_URL (v : string)
| CURLOPT_TIMEOUT_MS (v : Z)
| CURLOPT_CONNECTTIMEOUT_MS (v : Z)
| CURLOPT_FOLLOWLOCATION (v : Z)
| CURLOPT_MAXREDIRS (v : Z)
| CURLOPT_SSL_VERIFYPEER (v : Z)
| CURLOPT_SSL_VERIFYHOST (v : Z)
| CURLOPT_NOBODY (v : Z)
| CURLOPT_WRITEFUNCTION (f : Z -> Z -> Z)
| CURLOPT_MAXCONNECTS (v : Z).

Inductive CURLINFO : Type :=
| CURLINFO_REDIRECT_URL
| CURLINFO_EFFECTIVE_URL.

(** The easy handle: the options that stay set until changed, and what the
    last transfer left behind for [curl_easy_getinfo] ([None] is a NULL
    [char*]). *)
Record CURL : Type := mkCURL {
  opt_url : string;
  opt_timeout_ms : Z;
  opt_connecttimeout_ms : Z;
  opt_followlocation : Z;
  opt_maxredirs : Z;
  opt_ssl_verifypeer : Z;
  opt_ssl_verifyhost : Z;
  opt_nobody : Z;
  opt_writefunction : option (Z -> Z -> Z);
  opt_maxconnects : Z;
  info_redirect_url : option string;
  info_effective_url : option string
}.

(** A handle as [curl_easy_init] returns it: no time limits, redirects not
    followed and not capped, certificate and host name verified. *)
Definition curl_easy_init : CURL :=
  {| opt_url := "";
     opt_timeout_ms := 0;
     opt_connecttimeout_ms := 0;
     opt_followlocation := 0;
     opt_maxredirs := -1;
     opt_ssl_verifypeer := 1;
     opt_ssl_verifyhost := 2;
     opt_nobody := 0;
     opt_writefunction := None;
     opt_maxconnects := 5;
     info_redirect_url := None;
     info_effective_url := None |}.

Definition setopt (o : CURLoption) (h : CURL) : CURL :=
  match o with
  | CURLOPT_URL v =>
      mkCURL v (opt_timeout_ms h) (opt_connecttimeout_ms h)
        (opt_followlocation h) (opt_maxredirs h) (opt_ssl_verifypeer h)
        (opt_ssl_verifyhost h) (opt_nobody h) (opt_writefunction h)
        (opt_maxconnects h) (info_redirect_url h) (info_effective_url h)
  | CURLOPT_TIMEOUT_MS v =>
      mkCURL (opt_url h) v (opt_connecttimeout_ms h)
        (opt_followlocation h) (opt_maxredirs h) (opt_ssl_verifypeer h)
        (opt_ssl_verifyhost h) (opt_nobody h) (opt_writefunction h)
        (opt_maxconnects h) (info_redirect_url h) (info_effective_url h)
  | CURLOPT_CONNECTTIMEOUT_MS v =>
      mkCURL (opt_url h) (opt_timeout_ms h) v
        (opt_followlocation h) (opt_maxredirs h) (opt_ssl_verifypeer h)
        (opt_ssl_verifyhost h) (opt_nobody h) (opt_writefunction h)
        (opt_maxconnects h) (info_redirect_url h) (info_effective_url h)
  | CURLOPT_FOLLOWLOCATION v =>
      mkCURL (opt_url h) (opt_timeout_ms h) (opt_connecttimeout_ms h)
        v (opt_maxredirs h) (opt_ssl_verifypeer h)
        (opt_ssl_verifyhost h) (opt_nobody h) (opt_writefunction h)
        (opt_maxconnects h) (info_redirect_url h) (info_effective_url h)
  | CURLOPT_MAXREDIRS v =>
      mkCURL (opt_url h) (opt_timeout_ms h) (opt_connecttimeout_ms h)
        (opt_followlocation h) v (opt_ssl_verifypeer h)
        (opt_ssl_verifyhost h) (opt_nobody h) (opt_writefunction h)
        (opt_maxconnects h) (info_redirect_url h) (info_effective_url h)
  | CURLOPT_SSL_VERIFYPEER v =>
      mkCURL (opt_url h) (opt_timeout_ms h) (opt_connecttimeout_ms h)
        (opt_followlocation h) (opt_maxredirs h) v
        (opt_ssl_verifyhost h) (opt_nobody h) (opt_writefunction h)
        (opt_maxconnects h) (info_redirect_url h) (info_effective_url h)
  | CURLOPT_SSL_VERIFYHOST v =>
      mkCURL (opt_url h) (opt_timeout_ms h) (opt_connecttimeout_ms h)
        (opt_followlocation h) (opt_maxredirs h) (opt_ssl_verifypeer h)
        v (opt_nobody h) (opt_writefunction h)
        (opt_maxconnects h) (info_redirect_url h) (info_effective_url h)
  | CURLOPT_NOBODY v =>
      mkCURL (opt_url h) (opt_timeout_ms h) (opt_connecttimeout_ms h)
        (opt_followlocation h) (opt_maxredirs h) (opt_ssl_verifypeer h)
        (opt_ssl_verifyhost h) v (opt_writefunction h)
        (opt_maxconnects h) (info_redirect_url h) (info_effective_url h)
  | CURLOPT_WRITEFUNCTION f =>
      mkCURL (opt_url h) (opt_timeout_ms h) (opt_connecttimeout_ms h)
        (opt_followlocation h) (opt_maxredirs h) (opt_ssl_verifypeer h)
        (opt_ssl_verifyhost h) (opt_nobody h) (Some f)
        (opt_maxconnects h) (info_redirect_url h) (info_effective_url h)
  | CURLOPT_MAXCONNECTS v =>
      mkCURL (opt_url h) (opt_timeout_ms h) (opt_connecttimeout_ms h)
        (opt_followlocation h) (opt_maxredirs h) (opt_ssl_verifypeer h)
        (opt_ssl_verifyhost h) (opt_nobody h) (opt_writefunction h)
        v (info_redirect_url h) (info_effective_url h)
  end.

Definition getinfo (i : CURLINFO) (h : CURL) : option string :=
  match i with
  | CURLINFO_REDIRECT_URL => info_redirect_url h
  | CURLINFO_EFFECTIVE_URL => info_effective_url h
  end.

(** How one transfer ends: the code [curl_easy_perform] returns, the two
    URLs retrievable afterwards, and the wall-clock time it took. *)
Record Outcome : Type := mkOutcome {
  code : CURLcode;
  redirect_url : option string;
  effective_url : option string;
  elapsed_ns : Z
}.

Definition record_outcome (o : Outcome) (h : CURL) : CURL :=
  mkCURL (opt_url h) (opt_timeout_ms h) (opt_connecttimeout_ms h)
    (opt_followlocation h) (opt_maxredirs h) (opt_ssl_verifypeer h)
    (opt_ssl_verifyhost h) (opt_nobody h) (opt_writefunction h)
    (opt_maxconnects h) (redirect_url o) (effective_url o).

(** ** Process state *)

(** A line written to standard output or standard error, before
    formatting. *)
Inductive Line : Type :=
| perform_failed (res : CURLcode) (msg : string)
| url_completed (url expanded : string) (ms : Z)
| url_error (url : string) (res : CURLcode) (msg : string) (ms : Z)
| global_init_failed (res : CURLcode) (msg : string)
| handle_creation_failed.

(** The file-scope variables of [main.cpp], the clock, the output streams,
    and a record of the handle's configuration at each transfer (ghost
    state: the program does not read it). *)
Record State : Type := mkState {
  curl : CURL;
  max_connections : Z;
  default_max_redirects : Z;
  default_max_time_ms : Z;
  clock_ns : Z;
  performed : list CURL;
  stdout : list Line;
  stderr : list Line
}.

(** ** State passing *)

Definition M (A : Type) : Type := State -> A * State.

Global Instance M_ret : MRet M := fun A (a : A) s => (a, s).
Global Instance M_bind : MBind M :=
  fun A B (f : A -> M B) (c : M A) s => let '(a, s') := c s in f a s'.

Definition gets {A : Type} (f : State -> A) : M A := fun s => (f s, s).
Definition modify (f : State -> State) : M unit := fun s => (tt, f s).

Definition with_curl (f : CURL -> CURL) (s : State) : State :=
  mkState (f (curl s)) (max_connections s) (default_max_redirects s)
    (default_max_time_ms s) (clock_ns s) (performed s) (stdout s) (stderr s).

Definition to_stdout (l : Line) (s : State) : State :=
  mkState (curl s) (max_connections s) (default_max_redirects s)
    (default_max_time_ms s) (clock_ns s) (performed s) (stdout s ++ [l])
    (stderr s).

Definition to_stderr (l : Line) (s : State) : State :=
  mkState (curl s) (max_connections s) (default_max_redirects s)
    (default_max_time_ms s) (clock_ns s) (performed s) (stdout s)
    (stderr s ++ [l]).

(** A transfer took place: the handle it ran on is recorded and the clock
    has moved. *)
Definition transferred (o : Outcome) (s : State) : State :=
  mkState (record_outcome o (curl s)) (max_connections s)
    (default_max_redirects s) (default_max_time_ms s)
    (clock_ns s + elapsed_ns o) (performed s ++ [curl s]) (stdout s)
    (stderr s).

(** [Clock::now()], in nanoseconds. *)
Definition Clock_now : M Z := gets clock_ns.

(** [duration_cast<milliseconds>(d).count()]: truncation towards zero. *)
Definition duration_ms (d : Z) : Z := Z.quot d 1000000.

(** What the program needs from libcurl besides the handle: how a transfer
    on the current state ends, and the text of an error code. *)
Class Libcurl : Type := {
  transfer : State -> Outcome;
  curl_easy_strerror : CURLcode -> string
}.

Section Resolver.

Context {lib : Libcurl}.

Definition curl_easy_setopt (o : CURLoption) : M unit :=
  modify (with_curl (setopt o)).

Definition curl_easy_perform : M CURLcode :=
  fun s => let o := transfer s in (code o, transferred o s).

Definition curl_easy_getinfo (i : CURLINFO) : M (option string) :=
  gets (fun s => getinfo i (curl s)).

Definition fprintf_stderr (l : Line) : M unit := modify (to_stderr l).
Definition printf (l : Line) : M unit := modify (to_stdout l).

(** The two output parameters of [expand_url]. *)
Record Output : Type := mkOutput {
  output_url : string;
  reached_redirect_limit : bool
}.

(** Lines 69-75: "Set request-specific options". *)
Definition set_request_options (url : string) (max_time_ms max_redirects : Z)
  : M unit :=
  curl_easy_setopt (CURLOPT_URL url) ;;
  curl_easy_setopt (CURLOPT_TIMEOUT_MS max_time_ms) ;;
  if 0 <? max_redirects then
    curl_easy_setopt (CURLOPT_FOLLOWLOCATION 1) ;;
    curl_easy_setopt (CURLOPT_MAXREDIRS max_redirects)
  else mret tt.

(** Lines 79-83: "Restore request-specific options to defaults". *)
Definition restore_request_options (max_time_ms : Z) : M unit :=
  curl_easy_setopt (CURLOPT_TIMEOUT_MS max_time_ms) ;;
  curl_easy_setopt (CURLOPT_CONNECTTIMEOUT_MS max_time_ms) ;;
  curl_easy_setopt (CURLOPT_FOLLOWLOCATION 0) ;;
  curl_easy_setopt (CURLOPT_MAXREDIRS (-1)).

(** Lines 96-117: "Extract URL". *)
Definition extract_url (out : Output) : M (CURLcode * Output) :=
  extracted_url ← curl_easy_getinfo CURLINFO_REDIRECT_URL ;
  match extracted_url with
  | Some u => mret (CURLE_OK, mkOutput u true)
  | None =>
      extracted_url ← curl_easy_getinfo CURLINFO_EFFECTIVE_URL ;
      match extracted_url with
      | Some u => mret (CURLE_OK, mkOutput u false)
      | None => mret (CURLE_FAILED_INIT, out)
      end
  end.

(** [expand_url]: [out] holds the output parameters as the caller passed
    them; they come back changed only where the code assigns them. *)
Definition expand_url (out : Output) (url : string)
    (max_time_ms max_redirects : Z) : M (CURLcode * Output) :=
  set_request_options url max_time_ms max_redirects ;;
  res ← curl_easy_perform ;
  restore_request_options max_time_ms ;;
  if negb (res =? CURLE_OK) then
    fprintf_stderr (perform_failed res (curl_easy_strerror res)) ;;
    if negb (res =? CURLE_TOO_MANY_REDIRECTS) then mret (res, out)
    else extract_url out
  else extract_url out.

End Resolver.

(** ** The service adapter *)

(** A JSON payload as the handler observes it, through the three accessors
    it calls on the parsed view. *)
Record JsonView : Type := mkJsonView {
  ValueExists : string -> bool;
  GetString : string -> string;
  GetInt64 : string -> Z
}.

(** The JSON parser: [None] when [WasParseSuccessful] is false. *)
Class JsonParser : Type := {
  JsonValue_parse : string -> option JsonView
}.

(** The members of the response object. *)
Inductive JsonItem : Type :=
| JInt64 (z : Z)
| JString (s : string)
| JBool (b : bool).

Definition WithInt64 (k : string) (z : Z) (o : gmap string JsonItem)
  : gmap string JsonItem := <[k := JInt64 z]> o.
Definition WithString (k : string) (v : string) (o : gmap string JsonItem)
  : gmap string JsonItem := <[k := JString v]> o.
Definition WithBool (k : string) (b : bool) (o : gmap string JsonItem)
  : gmap string JsonItem := <[k := JBool b]> o.

Record invocation_request : Type := mkRequest { payload : string }.

(** [invocation_response::success] carries the response object (its
    compact serialisation is left to the JSON library) and a content type;
    [invocation_response::failure] an error message and an error type. *)
Inductive invocation_response : Type :=
| success (body : gmap string JsonItem) (content_type : string)
| failure (error_message error_type : string).

Section FrontEnd.

Context {lib : Libcurl} {json : JsonParser}.

(** The value an uninitialised [bool] local happens to hold. *)
Variable indeterminate : bool.

Definition expand_url_handler (request : invocation_request)
  : M invocation_response :=
  match JsonValue_parse (payload request) with
  | None => mret (failure "Failed to parse input JSON" "InvalidJSON")
  | Some v =>
      if negb (ValueExists v "url") then
        mret (failure "Missing URL argument" "InvalidJSON")
      else
        let url := GetString v "url" in
        dflt_time ← gets default_max_time_ms ;
        dflt_redirects ← gets default_max_redirects ;
        let max_time_ms :=
          if ValueExists v "max_time_ms"
          then to_long (GetInt64 v "max_time_ms") else dflt_time in
        let max_redirects :=
          if ValueExists v "max_redirects"
          then to_int (GetInt64 v "max_redirects") else to_int dflt_redirects in
        before ← Clock_now ;
        r ← expand_url (mkOutput "" indeterminate) url max_time_ms max_redirects ;
        after ← Clock_now ;
        let duration := after - before in
        let response := WithInt64 "duration_ms" (duration_ms duration) ∅ in
        let response :=
          if r.1 =? CURLE_OK then
            WithBool "reached_redirect_limit" (reached_redirect_limit r.2)
              (WithString "expanded_url" (output_url r.2)
                 (WithInt64 "error_code" 0 response))
          else
            WithString "error_message" (curl_easy_strerror r.1)
              (WithInt64 "error_code" r.1 response) in
        mret (success response "application/json")
  end.

(** [run_handler]: the runtime hands the handler one invocation after the
    other and collects the responses. *)
Fixpoint run_handler (handler : invocation_request -> M invocation_response)
    (invocations : list invocation_request) : M (list invocation_response) :=
  match invocations with
  | [] => mret []
  | request :: rest =>
      response ← handler request ;
      responses ← run_handler handler rest ;
      mret (response :: responses)
  end.

End FrontEnd.

(** ** The batch adapter: strings *)

(** [std::string::find], [substr] and [erase]. *)
Definition find (s delimiter : string) : option nat :=
  String.index 0 delimiter s.

Definition substr (s : string) (pos len : nat) : string :=
  String.substring pos len s.

Definition erase (s : string) (pos len : nat) : string :=
  String.substring 0 pos s +:+
  String.substring (pos + len) (String.length s - (pos + len)) s.

(** The loop of [split], one iteration per unit of [fuel]; [None] when the
    fuel does not reach the end of the loop. *)
Fixpoint split_loop (fuel : nat) (s delimiter : string) (res : list string)
  : option (list string) :=
  match fuel with
  | O => None
  | S fuel' =>
      match find s delimiter with
      | Some pos =>
          let token := substr s 0 pos in
          let res' :=
            if (0 <? String.length token)%nat then res ++ [token] else res in
          split_loop fuel'
            (erase s 0 (pos + String.length delimiter)) delimiter res'
      | None =>
          Some (if (0 <? String.length s)%nat then res ++ [s] else res)
      end
  end.

(** [split]: every iteration that finds a non-empty delimiter shortens
    [s], so one more iteration than [s] has characters is enough.  (With an
    empty delimiter the source loops forever, and the model gives [None].) *)
Definition split (s delimiter : string) : option (list string) :=
  split_loop (S (String.length s)) s delimiter [].

(** The C and C++ conversions of a decimal string: white space, an
    optional sign, then digits; what follows the digits is ignored. *)
Definition isspace (c : ascii) : bool :=
  let n := nat_of_ascii c in
  ((n =? 32) || ((9 <=? n) && (n <=? 13)))%nat.

Definition digit_of (c : ascii) : option Z :=
  let n := Z.of_nat (nat_of_ascii c) in
  if (48 <=? n) && (n <=? 57) then Some (n - 48) else None.

Fixpoint skip_spaces (s : string) : string :=
  match s with
  | String c s' => if isspace c then skip_spaces s' else s
  | EmptyString => s
  end.

(** The digits at the front of [s], read in base ten after the value
    [acc] read so far ([None]: no digit read yet). *)
Fixpoint read_digits (s : string) (acc : option Z) : option Z :=
  match s with
  | String c s' =>
      match digit_of c with
      | Some d => read_digits s' (Some (10 * default 0 acc + d))
      | None => acc
      end
  | EmptyString => acc
  end.

(** The mathematical value [strtoll] reads, [None] when there is no
    conversion. *)
Definition decimal_value (s : string) : option Z :=
  match skip_spaces s with
  | String "-" s' => Z.opp <$> read_digits s' None
  | String "+" s' => read_digits s' None
  | s' => read_digits s' None
  end.

Inductive exception : Type :=
| invalid_argument
| out_of_range.

(** [std::stoll] and [std::stoi] throw where the C functions do not. *)
Definition stoll (s : string) : exception + Z :=
  match decimal_value s with
  | None => inl invalid_argument
  | Some v =>
      if (LLONG_MIN <=? v) && (v <=? LLONG_MAX) then inr v
      else inl out_of_range
  end.

Definition stoi (s : string) : exception + Z :=
  match decimal_value s with
  | None => inl invalid_argument
  | Some v =>
      if (INT_MIN <=? v) && (v <=? INT_MAX) then inr v
      else inl out_of_range
  end.

(** [std::atoll]: zero without a conversion, the nearest bound on
    overflow. *)
Definition atoll (s : string) : Z :=
  match decimal_value s with
  | None => 0
  | Some v => Z.max LLONG_MIN (Z.min LLONG_MAX v)
  end.

(** ** The entry point *)

(** What the process sees of its surroundings. *)
Record Environment : Type := mkEnvironment {
  getenv : string -> option string;
  curl_global_init : CURLcode;
  curl_easy_init_succeeds : bool;
  boot_ns : Z;
  stdin : list string;
  invocations : list invocation_request
}.

(** How the process ends: [main] returns or [exit] is called, an exception
    escapes [main], or a loop never ends. *)
Inductive Exit : Type :=
| exit_status (n : Z)
| terminate (e : exception)
| no_return.

(** A run either stops before there is a handle, with a diagnostic and
    [exit(1)], or ends in some way with the state it reached and the
    responses it gave to the runtime. *)
Inductive Run : Type :=
| not_started (diagnostic : Line)
| started (e : Exit) (responses : list invocation_response) (s : State).

Section EntryPoint.

Context {lib : Libcurl} {json : JsonParser}.

Variable indeterminate : bool.

(** Lines 232-256: the configuration overrides and the creation of the
    handle. *)
Definition startup (env : Environment) : Line + State :=
  let max_connections :=
    match getenv env "MAX_CONNECTIONS" with
    | Some v => to_int (atoll v)
    | None => 500
    end in
  let default_max_time_ms :=
    match getenv env "DDEFAULT_MAX_TIME_MS" with
    | Some v => to_long (atoll v)
    | None => 500
    end in
  let default_max_redirects :=
    match getenv env "DEFAULT_MAX_REDIRECTS" with
    | Some v => to_long (atoll v)
    | None => 5
    end in
  let res := curl_global_init env in
  if negb (res =? CURLE_OK) then
    inl (global_init_failed res (curl_easy_strerror res))
  else if negb (curl_easy_init_succeeds env) then
    inl handle_creation_failed
  else
    inr (mkState curl_easy_init max_connections default_max_redirects
           default_max_time_ms (boot_ns env) [] [] []).

(** Lines 258-269: the options set once for the life of the handle. *)
Definition configure_handle : M unit :=
  curl_easy_setopt (CURLOPT_SSL_VERIFYPEER 0) ;;
  curl_easy_setopt (CURLOPT_SSL_VERIFYHOST 0) ;;
  curl_easy_setopt (CURLOPT_NOBODY 1) ;;
  curl_easy_setopt (CURLOPT_WRITEFUNCTION do_nothing) ;;
  connections ← gets max_connections ;
  curl_easy_setopt (CURLOPT_MAXCONNECTS connections).

(** The body of the loop at lines 277-304: [None] goes on to the next
    line, [Some e] leaves [main] with [e]. *)
Definition process_line (line : string) : M (option Exit) :=
  match split line " " with
  | None => mret (Some no_return)
  | Some parts =>
      if (length parts =? 0)%nat then mret None
      else
        let url := nth 0 parts "" in
        dflt_time ← gets default_max_time_ms ;
        dflt_redirects ← gets default_max_redirects ;
        match (if (1 <? length parts)%nat then stoll (nth 1 parts "")
               else inr dflt_time) with
        | inl e => mret (Some (terminate e))
        | inr max_time_ms =>
            match (if (2 <? length parts)%nat then stoi (nth 2 parts "")
                   else inr (to_int dflt_redirects)) with
            | inl e => mret (Some (terminate e))
            | inr max_redirects =>
                before ← Clock_now ;
                r ← expand_url (mkOutput "" indeterminate) url
                      max_time_ms max_redirects ;
                after ← Clock_now ;
                (if r.1 =? CURLE_OK then
                   printf (url_completed url (output_url r.2)
                             (duration_ms (after - before)))
                 else
                   fprintf_stderr
                     (url_error url r.1 (curl_easy_strerror r.1)
                        (duration_ms (after - before)))) ;;
                mret None
            end
        end
  end.

Fixpoint read_commands (lines : list string) : M Exit :=
  match lines with
  | [] => mret (exit_status 0)
  | line :: rest =>
      stop ← process_line line ;
      match stop with
      | Some e => mret e
      | None => read_commands rest
      end
  end.

Definition main (env : Environment) : Run :=
  match startup env with
  | inl diagnostic => not_started diagnostic
  | inr s0 =>
      let s1 := (configure_handle s0).2 in
      let is_lambda :=
        match getenv env "AWS_LAMBDA_FUNCTION_NAME" with
        | Some _ => true
        | None => false
        end in
      if is_lambda then
        let '(responses, s2) :=
          run_handler (expand_url_handler indeterminate) (invocations env) s1 in
        started (exit_status 0) responses s2
      else
        let '(e, s2) := read_commands (stdin env) s1 in
        started e [] s2
  end.

(** The states in which a resolution can begin: the one [main] reaches
    before it enters either mode, and whatever resolutions and output
    lead to from there. *)
Inductive reachable : State -> Prop :=
| reach_configured env s0 :
    startup env = inr s0 -> reachable (configure_handle s0).2
| reach_expand out url max_time_ms max_redirects s :
    reachable s -> reachable (expand_url out url max_time_ms max_redirects s).2
| reach_stdout l s : reachable s -> reachable (to_stdout l s)
| reach_stderr l s : reachable s -> reachable (to_stderr l s).

End EntryPoint.

(** ** A transport that serves redirect chains *)

(** A network of redirecting URLs: for each URL the targets of the
    successive redirect responses met when starting from it (empty when
    the URL answers with a non-redirect status), and the time one request
    takes. *)
Record Network : Type := mkNetwork {
  chain_of : string -> list string;
  round_trip_ns : Z
}.

(** Modelled from the spec: the transport session (libcurl), which is
    outside the repository.  One HEAD request on a handle either does not
    follow redirects, and then the effective URL is the requested one and
    the next-hop URL is the target of its redirect response, if it is one;
    or follows them up to the cap ([-1]: no cap), and then it ends at the
    terminal URL with no next hop, or stops with the "redirect cap
    exceeded" failure after following [cap] hops, the next hop still
    retrievable. *)
Definition chain_outcome (net : Network) (h : CURL) : Outcome :=
  let url := opt_url h in
  let chain := chain_of net url in
  if opt_followlocation h =? 0 then
    mkOutcome CURLE_OK (head chain) (Some url) (round_trip_ns net)
  else if (opt_maxredirs h <? 0)
          || (Z.of_nat (length chain) <=? opt_maxredirs h) then
    mkOutcome CURLE_OK None (Some (List.last chain url))
      (round_trip_ns net * (1 + Z.of_nat (length chain)))
  else
    let cap := Z.to_nat (opt_maxredirs h) in
    mkOutcome CURLE_TOO_MANY_REDIRECTS (chain !! cap)
      (Some (List.last (take cap chain) url))
      (round_trip_ns net * (1 + opt_maxredirs h)).

(** A few of the texts of [curl_easy_strerror]. *)
Definition strerror (c : CURLcode) : string :=
  if c =? CURLE_OK then "No error"
  else if c =? CURLE_FAILED_INIT then "Failed initialization"
  else if c =? CURLE_COULDNT_CONNECT then "Could not connect to server"
  else if c =? CURLE_OPERATION_TIMEDOUT then "Timeout was reached"
  else if c =? CURLE_TOO_MANY_REDIRECTS
  then "Number of redirects hit maximum amount"
  else "Unknown error".

Definition chain_transport (net : Network) : Libcurl :=
  {| transfer := fun s => chain_outcome net (curl s);
     curl_easy_strerror := strerror |}.

(** A transport whose every transfer ends the same way, and a parser that
    gives every payload the same reading: stand-ins for tests. *)
Definition fixed_transport (o : Outcome) : Libcurl :=
  {| transfer := fun _ => o; curl_easy_strerror := strerror |}.

Definition fixed_parser (v : option JsonView) : JsonParser :=
  {| JsonValue_parse := fun _ => v |}.

(** ** Vocabulary of the statements *)

(** How [expand_url] reads the end of a transfer. *)
Definition classify (o : Outcome) (out : Output) : CURLcode * Output :=
  if (code o =? CURLE_OK) || (code o =? CURLE_TOO_MANY_REDIRECTS) then
    match redirect_url o, effective_url o with
    | Some u, _ => (CURLE_OK, mkOutput u true)
    | None, Some u => (CURLE_OK, mkOutput u false)
    | None, None => (CURLE_FAILED_INIT, out)
    end
  else (code o, out).

(** Redirects are not followed. *)
Definition follow_off (h : CURL) : Prop := opt_followlocation h = 0.

(** Certificate verification is off. *)
Definition insecure (h : CURL) : Prop :=
  opt_ssl_verifypeer h = 0 /\ opt_ssl_verifyhost h = 0.

(** The budgets a service request asks for: its own where the payload has
    the field, the configured default otherwise. *)
Definition time_budget (v : JsonView) (s : State) : Z :=
  if ValueExists v "max_time_ms" then to_long (GetInt64 v "max_time_ms")
  else default_max_time_ms s.

Definition redirect_budget (v : JsonView) (s : State) : Z :=
  if ValueExists v "max_redirects" then to_int (GetInt64 v "max_redirects")
  else to_int (default_max_redirects s).

(** A payload with all three fields: the URL [r3] of the example network,
    a time budget of 300 ms and the redirect budget [redirects]. *)
Definition example_view (redirects : Z) : JsonView :=
  mkJsonView
    (fun k =>
       String.eqb k "url" || String.eqb k "max_time_ms"
       || String.eqb k "max_redirects")
    (fun k => if String.eqb k "url" then "http://example.test/r3" else "")
    (fun k =>
       if String.eqb k "max_time_ms" then 300
       else if String.eqb k "max_redirects" then redirects
       else 0).

(** A payload that is an object without the [url] field. *)
Definition empty_view : JsonView :=
  mkJsonView (fun _ => false) (fun _ => "") (fun _ => 0).

(** [evolves s s']: the process gets from [s] to [s'] by resolutions and
    by writing lines to its output streams. *)
Inductive evolves {lib : Libcurl} (s : State) : State -> Prop :=
| evolves_refl : evolves s s
| evolves_expand out url max_time_ms max_redirects s' :
    evolves s s' ->
    evolves s (expand_url out url max_time_ms max_redirects s').2
| evolves_stdout l s' : evolves s s' -> evolves s (to_stdout l s')
| evolves_stderr l s' : evolves s s' -> evolves s (to_stderr l s').

(** The URLs of the transfers made so far, in order. *)
Definition transfers (s : State) : list string := opt_url <$> performed s.

(** The exception the numeric fields of a batch line raise, if any. *)
Definition conversion_error (line : string) : option exception :=
  match split line " " with
  | None => None
  | Some parts =>
      match (if (1 <? length parts)%nat then stoll (nth 1 parts "")
             else inr 0) with
      | inl e => Some e
      | inr _ =>
          match (if (2 <? length parts)%nat then stoi (nth 2 parts "")
                 else inr 0) with
          | inl e => Some e
          | inr _ => None
          end
      end
  end.

(** The URL a batch line asks for: its first field, if it has one. *)
Definition line_url (line : string) : option string :=
  match split line " " with
  | Some (url :: _) => Some url
  | _ => None
  end.

(** A process with no configuration in its environment, started at time
    zero with [lines] on standard input. *)
Definition batch_environment (lines : list string) : Environment :=
  mkEnvironment (fun _ => None) CURLE_OK true 0 lines [].

(** A Lambda process that receives [requests]. *)
Definition lambda_environment (requests : list invocation_request)
  : Environment :=
  mkEnvironment
    (fun name =>
       if String.eqb name "AWS_LAMBDA_FUNCTION_NAME" then Some "expander"
       else None)
    CURLE_OK true 0 [] requests.

(** The state of a process started without configuration, at the point
    where [main] enters one of its two modes. *)
Definition example_session : State :=
  (configure_handle (mkState curl_easy_init 500 5 500 0 [] [] [])).2.

(** The chain [r3 -> r2 -> r1 -> final] of the specification's scenarios. *)
Definition example_network : Network :=
  mkNetwork
    (fun url =>
       if String.eqb url "http://example.test/r3" then
         ["http://example.test/r2"; "http://example.test/r1";
          "http://example.test/final"]
       else if String.eqb url "http://example.test/r2" then
         ["http://example.test/r1"; "http://example.test/final"]
       else if String.eqb url "http://example.test/r1" then
         ["http://example.test/final"]
       else [])
    1000000.

(** The fields of [s] for a one-character delimiter [c], read character
    by character: [token] holds the characters of the field being read. *)
Fixpoint fields_from (c : ascii) (s token : string) : list string :=
  match s with
  | EmptyString =>
      if (0 <? String.length token)%nat then [token] else []
  | String b s' =>
      if Ascii.eqb b c then
        (if (0 <? String.length token)%nat then [token] else [])
        ++ fields_from c s' ""
      else fields_from c s' (token +:+ String b "")
  end.

Definition fields (c : ascii) (s : string) : list string :=
  fields_from c s "".

(** The URL a service request asks to resolve, if it gets that far. *)
Definition request_url {json : JsonParser} (request : invocation_request)
  : option string :=
  match JsonValue_parse (payload request) with
  | Some v => if ValueExists v "url" then Some (GetString v "url") else None
  | None => None
  end.

(** The options [expand_url] writes. *)
Definition request_option (o : CURLoption) : Prop :=
  match o with
  | CURLOPT_URL _ | CURLOPT_TIMEOUT_MS _ | CURLOPT_CONNECTTIMEOUT_MS _
  | CURLOPT_FOLLOWLOCATION _ | CURLOPT_MAXREDIRS _ => True
  | _ => False
  end.

(** The options [main] sets once: a HEAD request, the body discarded, the
    connection cache of the configured size. *)
Definition head_request (connections : Z) (h : CURL) : Prop :=
  opt_nobody h = 1
  /\ opt_maxconnects h = connections
  /\ opt_writefunction h = Some do_nothing.

(** Redirects are not followed, or followed up to a positive cap. *)
Definition capped (h : CURL) : Prop :=
  opt_followlocation h = 0
  \/ (opt_followlocation h = 1 /\ 0 < opt_maxredirs h).

(** The lines that report the result of a batch line. *)
Definition is_result (l : Line) : bool :=
  match l with
  | url_completed _ _ _ | url_error _ _ _ _ => true
  | _ => false
  end.

Definition results (s : State) : nat :=
  (length (filter (fun l => is_result l = true) (stdout s))
   + length (filter (fun l => is_result l = true) (stderr s)))%nat.


(** A payload with the [url] field only. *)
Definition url_only_view : JsonView :=
  mkJsonView (fun k => String.eqb k "url")
    (fun k => if String.eqb k "url" then "http://example.test/r3" else "")
    (fun _ => 0).

(** A parser for three payloads: one that does not parse, the empty
    object, and any other, read as a request for [r3] with budget 1. *)
Definition example_parser : JsonParser :=
  {| JsonValue_parse :=
       fun payload =>
         if String.eqb payload "not json" then None
         else if String.eqb payload "{}" then Some empty_view
         else Some (example_view 1) |}.

(** * Properties *)

(** Unfolds the sequencing of [M] in the goal. *)
Ltac run_M := cbv beta iota zeta delta [mbind M_bind mret M_ret].

(** ** Machine integers *)

Lemma wrap_signed_range w z :
  0 < w -> - 2 ^ (w - 1) <= wrap_signed w z < 2 ^ (w - 1).
Proof.
  intros Hw. unfold wrap_signed.
  assert (H2 : 2 ^ w = 2 * 2 ^ (w - 1)).
  { rewrite <- Z.pow_succ_r by lia. f_equal. lia. }
  assert (Hp : 0 < 2 ^ (w - 1)) by (apply Z.pow_pos_nonneg; lia).
  pose proof (Z.mod_pos_bound (z + 2 ^ (w - 1)) (2 ^ w) ltac:(lia)).
  lia.
Qed.

Lemma wrap_signed_id w z :
  0 < w -> - 2 ^ (w - 1) <= z < 2 ^ (w - 1) -> wrap_signed w z = z.
Proof.
  intros Hw Hz. unfold wrap_signed.
  assert (H2 : 2 ^ w = 2 * 2 ^ (w - 1)).
  { rewrite <- Z.pow_succ_r by lia. f_equal. lia. }
  rewrite Z.mod_small by lia. lia.
Qed.

Lemma wrap_signed_congruent w z :
  0 < w -> (wrap_signed w z - z) mod 2 ^ w = 0.
Proof.
  intros Hw. unfold wrap_signed.
  assert (Hp : 0 < 2 ^ w) by (apply Z.pow_pos_nonneg; lia).
  rewrite (Z.mod_eq (z + 2 ^ (w - 1)) (2 ^ w)) by lia.
  replace (z + 2 ^ (w - 1) - 2 ^ w * ((z + 2 ^ (w - 1)) / 2 ^ w)
           - 2 ^ (w - 1) - z)
    with (- ((z + 2 ^ (w - 1)) / 2 ^ w) * 2 ^ w) by lia.
  apply Z.mod_mul. lia.
Qed.

Lemma to_int_in_int z : in_int (to_int z).
Proof.
  unfold in_int, INT_MIN, INT_MAX, to_int.
  pose proof (wrap_signed_range 32 z ltac:(lia)) as H.
  change (32 - 1) with 31 in H. lia.
Qed.

Lemma to_int_id z : in_int z -> to_int z = z.
Proof.
  unfold in_int, INT_MIN, INT_MAX, to_int. intros H.
  apply wrap_signed_id; [lia|]. change (32 - 1) with 31. lia.
Qed.

Lemma to_long_id z : in_long z -> to_long z = z.
Proof.
  unfold in_long, LLONG_MIN, LLONG_MAX, to_long. intros H.
  apply wrap_signed_id; [lia|]. change (64 - 1) with 63. lia.
Qed.

(** ** The resolver *)

Section ResolverState.

Context {lib : Libcurl}.

(** The handle on which the transfer of a resolution runs. *)
Lemma set_request_options_state url t r s :
  (set_request_options url t r s).2
  = with_curl
      (fun h =>
         if 0 <? r then
           setopt (CURLOPT_MAXREDIRS r)
             (setopt (CURLOPT_FOLLOWLOCATION 1)
                (setopt (CURLOPT_TIMEOUT_MS t) (setopt (CURLOPT_URL url) h)))
         else setopt (CURLOPT_TIMEOUT_MS t) (setopt (CURLOPT_URL url) h))
      s.
Proof.
  unfold set_request_options, curl_easy_setopt, modify.
  run_M.
  destruct (0 <? r); reflexivity.
Qed.

Lemma restore_request_options_run t s :
  restore_request_options t s
  = (tt,
     with_curl
       (fun h =>
          setopt (CURLOPT_MAXREDIRS (-1))
            (setopt (CURLOPT_FOLLOWLOCATION 0)
               (setopt (CURLOPT_CONNECTTIMEOUT_MS t)
                  (setopt (CURLOPT_TIMEOUT_MS t) h))))
       s).
Proof. reflexivity. Qed.

(** [extract_url] reads the two URLs the last transfer left and does not
    change the state. *)
Lemma extract_url_run out s :
  extract_url out s
  = (match info_redirect_url (curl s), info_effective_url (curl s) with
     | Some u, _ => (CURLE_OK, mkOutput u true)
     | None, Some u => (CURLE_OK, mkOutput u false)
     | None, None => (CURLE_FAILED_INIT, out)
     end, s).
Proof.
  unfold extract_url, curl_easy_getinfo, gets, getinfo.
  run_M.
  destruct (info_redirect_url (curl s)), (info_effective_url (curl s));
    reflexivity.
Qed.

(** A resolution, step by step: one transfer on the state the request
    options leave, the four options written after it, a line on standard
    error when the transfer did not succeed, and the reading of how the
    transfer ended. *)
Lemma expand_url_run out url t r s :
  expand_url out url t r s
  = let s1 := (set_request_options url t r s).2 in
    let o := transfer s1 in
    let s2 :=
      with_curl
        (fun h =>
           setopt (CURLOPT_MAXREDIRS (-1))
             (setopt (CURLOPT_FOLLOWLOCATION 0)
                (setopt (CURLOPT_CONNECTTIMEOUT_MS t)
                   (setopt (CURLOPT_TIMEOUT_MS t) h))))
        (transferred o s1) in
    (classify o out,
     if code o =? CURLE_OK then s2
     else to_stderr (perform_failed (code o) (curl_easy_strerror (code o))) s2).
Proof.
  unfold expand_url, curl_easy_perform, fprintf_stderr, modify.
  run_M.
  destruct (set_request_options url t r s) as [[] s1]. cbn [snd].
  destruct (transfer s1) as [c next effective elapsed].
  rewrite restore_request_options_run. unfold classify. cbn [code].
  destruct (c =? CURLE_OK); cbn [negb orb];
    [|destruct (c =? CURLE_TOO_MANY_REDIRECTS); cbn [negb]];
    try reflexivity;
    rewrite extract_url_run;
    destruct next, effective; reflexivity.
Qed.

(** The result of [expand_url] is the reading of the transfer made on the
    state the request options leave. *)
Lemma expand_url_result out url t r s :
  (expand_url out url t r s).1
  = classify (transfer (set_request_options url t r s).2) out.
Proof. rewrite expand_url_run. reflexivity. Qed.

Lemma expand_url_state out url t r s :
  (expand_url out url t r s).2
  = let s1 := (set_request_options url t r s).2 in
    let o := transfer s1 in
    let s2 :=
      with_curl
        (fun h =>
           setopt (CURLOPT_MAXREDIRS (-1))
             (setopt (CURLOPT_FOLLOWLOCATION 0)
                (setopt (CURLOPT_CONNECTTIMEOUT_MS t)
                   (setopt (CURLOPT_TIMEOUT_MS t) h))))
        (transferred o s1) in
    if code o =? CURLE_OK then s2
    else to_stderr (perform_failed (code o) (curl_easy_strerror (code o))) s2.
Proof. rewrite expand_url_run. reflexivity. Qed.

(** What a resolution leaves in the handle. *)
Lemma expand_url_curl out url t r s :
  let s1 := (set_request_options url t r s).2 in
  curl (expand_url out url t r s).2
  = setopt (CURLOPT_MAXREDIRS (-1))
      (setopt (CURLOPT_FOLLOWLOCATION 0)
         (setopt (CURLOPT_CONNECTTIMEOUT_MS t)
            (setopt (CURLOPT_TIMEOUT_MS t)
               (record_outcome (transfer s1) (curl s1))))).
Proof.
  rewrite expand_url_state. cbv zeta.
  destruct (code _ =? CURLE_OK); reflexivity.
Qed.

(** A resolution makes exactly one transfer, on the handle the request
    options leave. *)
Lemma expand_url_performed out url t r s :
  performed (expand_url out url t r s).2
  = performed s ++ [curl (set_request_options url t r s).2].
Proof.
  rewrite expand_url_state. cbv zeta.
  destruct (code _ =? CURLE_OK); rewrite set_request_options_state;
    reflexivity.
Qed.

(** A resolution does not touch the configuration globals. *)
Lemma expand_url_globals out url t r s :
  let s' := (expand_url out url t r s).2 in
  max_connections s' = max_connections s
  /\ default_max_redirects s' = default_max_redirects s
  /\ default_max_time_ms s' = default_max_time_ms s.
Proof.
  cbv zeta. rewrite expand_url_state. cbv zeta.
  destruct (code _ =? CURLE_OK); rewrite set_request_options_state;
    repeat split; reflexivity.
Qed.

(** After a resolution redirects are not followed. *)
Lemma expand_url_follow_off out url t r s :
  follow_off (curl (expand_url out url t r s).2).
Proof. unfold follow_off. rewrite expand_url_curl. reflexivity. Qed.

(** A resolution leaves the verification options as they were, and its
    transfer runs with them as they were. *)
Lemma expand_url_insecure out url t r s :
  insecure (curl s) ->
  insecure (curl (expand_url out url t r s).2)
  /\ insecure (curl (set_request_options url t r s).2).
Proof.
  intros [Hp Hh]. rewrite expand_url_curl, set_request_options_state.
  unfold insecure. destruct (0 <? r); simpl; auto.
Qed.

End ResolverState.

(** ** States in which a resolution begins *)

Section Sessions.

Context {lib : Libcurl}.

Lemma configure_handle_curl s :
  curl (configure_handle s).2
  = setopt (CURLOPT_MAXCONNECTS (max_connections s))
      (setopt (CURLOPT_WRITEFUNCTION do_nothing)
         (setopt (CURLOPT_NOBODY 1)
            (setopt (CURLOPT_SSL_VERIFYHOST 0)
               (setopt (CURLOPT_SSL_VERIFYPEER 0) (curl s))))).
Proof. reflexivity. Qed.

Lemma startup_curl env s0 : startup env = inr s0 -> curl s0 = curl_easy_init.
Proof.
  unfold startup.
  destruct (negb (curl_global_init env =? CURLE_OK)); [discriminate|].
  destruct (negb (curl_easy_init_succeeds env)); [discriminate|].
  intros [= <-]. reflexivity.
Qed.

Lemma startup_performed env s0 : startup env = inr s0 -> performed s0 = [].
Proof.
  unfold startup.
  destruct (negb (curl_global_init env =? CURLE_OK)); [discriminate|].
  destruct (negb (curl_easy_init_succeeds env)); [discriminate|].
  intros [= <-]. reflexivity.
Qed.

(** Between resolutions the shared handle does not follow redirects and
    does not verify certificates. *)
Lemma reachable_idle s : reachable s -> follow_off (curl s) /\ insecure (curl s).
Proof.
  induction 1 as [env s0 Hs0| out url t r s _ [_ IH] | l s _ IH | l s _ IH].
  - rewrite configure_handle_curl, (startup_curl _ _ Hs0).
    repeat split; reflexivity.
  - split; [apply expand_url_follow_off|].
    apply (expand_url_insecure out url t r s IH).
  - exact IH.
  - exact IH.
Qed.

End Sessions.


(** ** Resolution over redirect chains *)

(** C1. With the transport serving the redirect chain of the requested
    URL, a resolution begun in a state of the running program with a
    redirect budget [m >= 0] succeeds; when the chain has at most [m] hops
    it yields the terminal URL of the chain (the requested URL itself for
    an empty chain) with the limit flag off, and when the chain has more
    than [m] hops it yields the target of hop number [m + 1] (the element
    of index [m] of the list of targets) with the limit flag on. *)
Theorem expand_url_follows_chain net out url t m s :
  reachable (lib := chain_transport net) s ->
  0 <= m ->
  let chain := chain_of net url in
  let result := (expand_url (lib := chain_transport net) out url t m s).1 in
  (Z.of_nat (length chain) <= m ->
   result = (CURLE_OK, mkOutput (List.last chain url) false))
  /\ (m < Z.of_nat (length chain) ->
      exists hop, chain !! Z.to_nat m = Some hop
                  /\ result = (CURLE_OK, mkOutput hop true)).
Proof.
  intros Hs Hm chain result.
  destruct (reachable_idle s Hs) as [Hf _]. unfold follow_off in Hf.
  subst result. rewrite expand_url_result, set_request_options_state.
  unfold classify. cbn [transfer chain_transport]. unfold chain_outcome.
  destruct (0 <? m) eqn:Hpos.
  - apply Z.ltb_lt in Hpos. simpl. fold chain.
    replace (m <? 0) with false by (symmetry; apply Z.ltb_ge; lia).
    simpl. split; intros Hlen.
    + replace (Z.of_nat (length chain) <=? m) with true
        by (symmetry; apply Z.leb_le; lia).
      reflexivity.
    + replace (Z.of_nat (length chain) <=? m) with false
        by (symmetry; apply Z.leb_gt; lia).
      simpl. destruct (chain !! Z.to_nat m) as [hop|] eqn:Hhop.
      * exists hop. split; reflexivity.
      * apply lookup_ge_None in Hhop. lia.
  - apply Z.ltb_ge in Hpos. assert (m = 0) as -> by lia.
    simpl. fold chain. rewrite Hf. simpl. split; intros Hlen.
    + destruct chain; [reflexivity | simpl in Hlen; lia].
    + destruct chain as [|hop rest]; [simpl in Hlen; lia|].
      exists hop. split; reflexivity.
Qed.

Lemma expand_url_follows_chain_witness :
  (expand_url (lib := chain_transport example_network) (mkOutput "" false)
     "http://example.test/r3" 500 5 example_session).1
  = (CURLE_OK, mkOutput "http://example.test/final" false)
  /\ (expand_url (lib := chain_transport example_network) (mkOutput "" false)
        "http://example.test/r3" 500 1 example_session).1
     = (CURLE_OK, mkOutput "http://example.test/r1" true).
Proof.
  split.
  - apply (expand_url_follows_chain example_network (mkOutput "" false)
             "http://example.test/r3" 500 5 example_session).
    + apply (reach_configured (batch_environment [])). reflexivity.
    + lia.
    + simpl. lia.
  - destruct (expand_url_follows_chain example_network (mkOutput "" false)
                "http://example.test/r3" 500 1 example_session)
      as [_ H].
    + apply (reach_configured (batch_environment [])). reflexivity.
    + lia.
    + destruct H as (hop & Hhop & ->); [simpl; lia|].
      simpl in Hhop. injection Hhop as <-. reflexivity.
Defined.

(** C3. With the transport serving redirect chains, a resolution with a
    redirect budget of zero, begun in a state of the running program, runs
    its transfer on a handle whose follow-redirects option is off; when the
    requested URL answers with a redirect it succeeds with that redirect's
    target and the limit flag on, and when it answers with a non-redirect
    status it succeeds with the requested URL and the limit flag off. *)
Theorem expand_url_zero_budget net out url t s :
  reachable (lib := chain_transport net) s ->
  let r := expand_url (lib := chain_transport net) out url t 0 s in
  (exists h, performed r.2 = performed s ++ [h]
             /\ opt_url h = url /\ opt_followlocation h = 0)
  /\ (forall target rest,
        chain_of net url = target :: rest ->
        r.1 = (CURLE_OK, mkOutput target true))
  /\ (chain_of net url = [] -> r.1 = (CURLE_OK, mkOutput url false)).
Proof.
  intros Hs r. subst r.
  destruct (reachable_idle s Hs) as [Hf _]. unfold follow_off in Hf.
  rewrite expand_url_performed, expand_url_result, set_request_options_state.
  simpl. split; [|split].
  - eexists. split; [reflexivity|]. split; [reflexivity | exact Hf].
  - intros target rest Hc. unfold classify, chain_outcome. simpl.
    rewrite Hf, Hc. reflexivity.
  - intros Hc. unfold classify, chain_outcome. simpl.
    rewrite Hf, Hc. reflexivity.
Qed.

Lemma expand_url_zero_budget_witness :
  (expand_url (lib := chain_transport example_network) (mkOutput "" false)
     "http://example.test/r1" 500 0 example_session).1
  = (CURLE_OK, mkOutput "http://example.test/final" true)
  /\ (expand_url (lib := chain_transport example_network) (mkOutput "" false)
        "http://example.test/final" 500 0 example_session).1
     = (CURLE_OK, mkOutput "http://example.test/final" false).
Proof.
  split.
  - apply (expand_url_zero_budget example_network (mkOutput "" false)
             "http://example.test/r1" 500 example_session)
      with (rest := []).
    + apply (reach_configured (batch_environment [])). reflexivity.
    + reflexivity.
  - apply (expand_url_zero_budget example_network (mkOutput "" false)
             "http://example.test/final" 500 example_session).
    + apply (reach_configured (batch_environment [])). reflexivity.
    + reflexivity.
Defined.

(** ** Reading the end of a transfer *)

(** Over redirect chains the "redirect cap exceeded" failure always comes
    with a next hop. *)
Lemma chain_outcome_too_many net h :
  code (chain_outcome net h) = CURLE_TOO_MANY_REDIRECTS ->
  exists hop, redirect_url (chain_outcome net h) = Some hop.
Proof.
  unfold chain_outcome.
  destruct (opt_followlocation h =? 0); [discriminate|].
  destruct (opt_maxredirs h <? 0) eqn:Hneg; [discriminate|].
  destruct (Z.of_nat (length (chain_of net (opt_url h))) <=? opt_maxredirs h)
    eqn:Hle; [discriminate|].
  intros _. simpl.
  apply Z.ltb_ge in Hneg. apply Z.leb_gt in Hle.
  destruct (chain_of net (opt_url h) !! Z.to_nat (opt_maxredirs h))
    as [hop|] eqn:Hhop; [eauto|].
  apply lookup_ge_None in Hhop. lia.
Qed.

(** C2. Whatever the transport does, [expand_url] never returns
    [CURLE_TOO_MANY_REDIRECTS]; when its transfer ends with that failure
    and a next-hop URL is retrievable afterwards, it returns [CURLE_OK]
    with that URL and the limit flag on; and over redirect chains, where
    the next hop is always retrievable after that failure, every transfer
    that ends with it is answered so. *)
Theorem expand_url_absorbs_redirect_cap :
  (forall (lib : Libcurl) out url t r s,
     (expand_url out url t r s).1.1 <> CURLE_TOO_MANY_REDIRECTS)
  /\ (forall (lib : Libcurl) out url t r s hop,
        code (transfer (set_request_options url t r s).2)
        = CURLE_TOO_MANY_REDIRECTS ->
        redirect_url (transfer (set_request_options url t r s).2) = Some hop ->
        (expand_url out url t r s).1 = (CURLE_OK, mkOutput hop true))
  /\ (forall net out url t r s,
        code (transfer (Libcurl := chain_transport net)
                (set_request_options url t r s).2)
        = CURLE_TOO_MANY_REDIRECTS ->
        exists hop,
          (expand_url (lib := chain_transport net) out url t r s).1
          = (CURLE_OK, mkOutput hop true)).
Proof.
  assert (Hcap : forall (lib : Libcurl) out url t r s hop,
            code (transfer (set_request_options url t r s).2)
            = CURLE_TOO_MANY_REDIRECTS ->
            redirect_url (transfer (set_request_options url t r s).2)
            = Some hop ->
            (expand_url out url t r s).1 = (CURLE_OK, mkOutput hop true)).
  { intros lib out url t r s hop Hc Hr.
    rewrite expand_url_result. unfold classify. rewrite Hc, Hr. reflexivity. }
  split; [|split; [exact Hcap|]].
  - intros lib out url t r s. rewrite expand_url_result. unfold classify.
    generalize (transfer (set_request_options url t r s).2) as o; intros o.
    destruct (code o =? CURLE_OK) eqn:Hok; cbn [orb].
    + destruct (redirect_url o), (effective_url o); discriminate.
    + destruct (code o =? CURLE_TOO_MANY_REDIRECTS) eqn:Htm.
      * destruct (redirect_url o), (effective_url o); discriminate.
      * cbn [fst]. apply Z.eqb_neq. exact Htm.
  - intros net out url t r s Hc.
    destruct (chain_outcome_too_many net _ Hc) as [hop Hhop].
    exists hop. apply (Hcap (chain_transport net)); assumption.
Qed.

Lemma expand_url_absorbs_redirect_cap_witness :
  (expand_url (lib := chain_transport example_network) (mkOutput "" false)
     "http://example.test/r3" 500 2 example_session).1
  = (CURLE_OK, mkOutput "http://example.test/final" true).
Proof.
  destruct expand_url_absorbs_redirect_cap as (_ & Hcap & _).
  apply (Hcap (chain_transport example_network) (mkOutput "" false)
           "http://example.test/r3" 500 2 example_session);
    reflexivity.
Defined.

(** C8. When the transfer reports success and neither a next-hop URL nor
    an effective URL is retrievable afterwards, [expand_url] returns
    [CURLE_FAILED_INIT], a code other than [CURLE_OK], and leaves its
    output parameters as they were. *)
Theorem expand_url_no_usable_url {lib : Libcurl} out url t r s :
  code (transfer (set_request_options url t r s).2) = CURLE_OK ->
  redirect_url (transfer (set_request_options url t r s).2) = None ->
  effective_url (transfer (set_request_options url t r s).2) = None ->
  (expand_url out url t r s).1 = (CURLE_FAILED_INIT, out)
  /\ CURLE_FAILED_INIT <> CURLE_OK.
Proof.
  intros Hc Hr He. rewrite expand_url_result. unfold classify.
  rewrite Hc, Hr, He. split; [reflexivity | discriminate].
Qed.

Lemma expand_url_no_usable_url_witness :
  (expand_url (lib := fixed_transport (mkOutcome CURLE_OK None None 1000000))
     (mkOutput "" false) "http://example.test/a" 500 5 example_session).1
  = (CURLE_FAILED_INIT, mkOutput "" false)
  /\ CURLE_FAILED_INIT <> CURLE_OK.
Proof.
  apply (expand_url_no_usable_url
           (lib := fixed_transport (mkOutcome CURLE_OK None None 1000000))
           (mkOutput "" false) "http://example.test/a" 500 5 example_session);
    reflexivity.
Defined.

(** ** What a resolution leaves in the shared handle *)

(** After a resolution the time budget of the call is still set, and the
    connection timeout now holds it too; the redirect options are back at
    their defaults; the URL is the one of the call. *)
Lemma expand_url_leaves_options {lib : Libcurl} out url t r s :
  let h := curl (expand_url out url t r s).2 in
  opt_timeout_ms h = t
  /\ opt_connecttimeout_ms h = t
  /\ opt_followlocation h = 0
  /\ opt_maxredirs h = -1
  /\ opt_url h = url.
Proof.
  cbv zeta. rewrite expand_url_curl, set_request_options_state.
  destruct (0 <? r); repeat split; reflexivity.
Qed.

(** C4 (evaluation of the code). A resolution with a time budget of 250 ms
    leaves the handle with [CURLOPT_TIMEOUT_MS] and
    [CURLOPT_CONNECTTIMEOUT_MS] both at 250 where a fresh handle has 0, and
    the transfer of the next resolution, called with a budget of 10000 ms,
    runs with the connection timeout of 250 ms the first one left. *)
Theorem expand_url_time_budget_not_reset :
  let first :=
    expand_url (lib := chain_transport example_network) (mkOutput "" false)
      "http://example.test/r3" 250 1 example_session in
  let second :=
    expand_url (lib := chain_transport example_network) (mkOutput "" false)
      "http://example.test/final" 10000 5 first.2 in
  opt_timeout_ms (curl first.2) = 250
  /\ opt_connecttimeout_ms (curl first.2) = 250
  /\ opt_timeout_ms curl_easy_init = 0
  /\ opt_connecttimeout_ms curl_easy_init = 0
  /\ opt_connecttimeout_ms <$> performed second.2 = [0; 250]
  /\ opt_timeout_ms <$> performed second.2 = [250; 10000].
Proof.
  cbv zeta. rewrite !expand_url_performed, !set_request_options_state.
  pose proof (expand_url_leaves_options (lib := chain_transport example_network)
                (mkOutput "" false) "http://example.test/r3" 250 1
                example_session) as (Ht & Hc & _).
  cbv zeta in Ht, Hc. repeat split; try assumption; reflexivity.
Qed.

(** ** The service adapter *)

Section Handler.

Context {lib : Libcurl} {json : JsonParser}.

Variable indeterminate : bool.

(** A request with a readable payload and a [url] field is answered from
    one resolution, with the budgets of the request. *)
Lemma expand_url_handler_resolves request v s :
  JsonValue_parse (payload request) = Some v ->
  ValueExists v "url" = true ->
  expand_url_handler indeterminate request s
  = let r := expand_url (mkOutput "" indeterminate) (GetString v "url")
               (time_budget v s) (redirect_budget v s) s in
    let response :=
      WithInt64 "duration_ms" (duration_ms (clock_ns r.2 - clock_ns s)) ∅ in
    (success
       (if r.1.1 =? CURLE_OK then
          WithBool "reached_redirect_limit" (reached_redirect_limit r.1.2)
            (WithString "expanded_url" (output_url r.1.2)
               (WithInt64 "error_code" 0 response))
        else
          WithString "error_message" (curl_easy_strerror r.1.1)
            (WithInt64 "error_code" r.1.1 response))
       "application/json",
     r.2).
Proof.
  intros Hv Hurl. unfold expand_url_handler. rewrite Hv, Hurl.
  cbv beta iota zeta delta [mbind M_bind mret M_ret gets Clock_now negb].
  unfold time_budget, redirect_budget.
  destruct (expand_url _ _ _ _ s) as [[res out] s']. reflexivity.
Qed.

(** The resolution a request leads to returns [CURLE_OK] or a code that is
    not zero. *)
Lemma code_not_ok (c : CURLcode) : (c =? CURLE_OK) = false -> c <> 0.
Proof. intros H. apply Z.eqb_neq in H. exact H. Qed.

(** C5. The response to a request with a readable payload and a [url]
    field is a success response carrying a JSON object with [duration_ms];
    when the resolution returned [CURLE_OK] the object has [error_code] 0,
    [expanded_url] and [reached_redirect_limit] and no [error_message];
    otherwise it has the non-zero code as [error_code] and an
    [error_message], and neither [expanded_url] nor
    [reached_redirect_limit]. *)
Theorem expand_url_handler_response request v s :
  JsonValue_parse (payload request) = Some v ->
  ValueExists v "url" = true ->
  let r := expand_url (mkOutput "" indeterminate) (GetString v "url")
             (time_budget v s) (redirect_budget v s) s in
  exists body : gmap string JsonItem,
    (expand_url_handler indeterminate request s).1
    = success body "application/json"
    /\ body !! "duration_ms"
       = Some (JInt64 (duration_ms (clock_ns r.2 - clock_ns s)))
    /\ if r.1.1 =? CURLE_OK then
         body !! "error_code" = Some (JInt64 0)
         /\ body !! "expanded_url" = Some (JString (output_url r.1.2))
         /\ body !! "reached_redirect_limit"
            = Some (JBool (reached_redirect_limit r.1.2))
         /\ body !! "error_message" = None
       else
         body !! "error_code" = Some (JInt64 r.1.1)
         /\ r.1.1 <> 0
         /\ body !! "error_message"
            = Some (JString (curl_easy_strerror r.1.1))
         /\ body !! "expanded_url" = None
         /\ body !! "reached_redirect_limit" = None.
Proof.
  intros Hv Hurl r.
  rewrite (expand_url_handler_resolves request v s Hv Hurl).
  cbv zeta. fold r. simpl fst.
  destruct (r.1.1 =? CURLE_OK) eqn:Hok; eexists; (split; [reflexivity|]);
    unfold WithInt64, WithString, WithBool.
  - repeat split; by simplify_map_eq.
  - pose proof (code_not_ok _ Hok). repeat split; by simplify_map_eq.
Qed.

(** C6. A request whose payload does not parse, or parses without a [url]
    field, is answered with a failure of type [InvalidJSON], and the state
    of the process is the same after it as before: no transfer took
    place. *)
Theorem expand_url_handler_invalid request s :
  (JsonValue_parse (payload request) = None
   \/ exists v, JsonValue_parse (payload request) = Some v
                /\ ValueExists v "url" = false) ->
  (exists message,
     expand_url_handler indeterminate request s
     = (failure message "InvalidJSON", s))
  /\ performed (expand_url_handler indeterminate request s).2 = performed s.
Proof.
  intros [Hp | (v & Hp & Hurl)]; unfold expand_url_handler; rewrite Hp.
  - split; [eexists|]; reflexivity.
  - rewrite Hurl. split; [eexists|]; reflexivity.
Qed.

(** C10. For a request that gives both budgets, the time budget an
    [int64] value [t] and the redirect budget [v], the handler leaves the
    state that [expand_url] leaves when called with the time budget [t]
    itself and the redirect budget [to_int v]: the value of [v] reduced
    modulo [2^32] into the range of [int], which is [v] when [v] is in that
    range and differs from it when it is not. *)
Theorem expand_url_handler_budgets request view s :
  JsonValue_parse (payload request) = Some view ->
  ValueExists view "url" = true ->
  ValueExists view "max_time_ms" = true ->
  ValueExists view "max_redirects" = true ->
  in_long (GetInt64 view "max_time_ms") ->
  let t := GetInt64 view "max_time_ms" in
  let v := GetInt64 view "max_redirects" in
  (expand_url_handler indeterminate request s).2
  = (expand_url (mkOutput "" indeterminate) (GetString view "url")
       t (to_int v) s).2
  /\ in_int (to_int v)
  /\ (to_int v - v) mod 2 ^ 32 = 0
  /\ (in_int v -> to_int v = v)
  /\ (~ in_int v -> to_int v <> v).
Proof.
  intros Hv Hurl Ht Hr Hlong t v.
  rewrite (expand_url_handler_resolves request view s Hv Hurl).
  cbv zeta. simpl snd. unfold time_budget, redirect_budget.
  rewrite Ht, Hr, (to_long_id _ Hlong).
  split; [reflexivity|].
  split; [apply to_int_in_int|].
  split; [apply (wrap_signed_congruent 32); lia|].
  split; [apply to_int_id|].
  intros Hout Heq. apply Hout. rewrite <- Heq. apply to_int_in_int.
Qed.

End Handler.

Lemma expand_url_handler_response_witness :
  exists body : gmap string JsonItem,
    (expand_url_handler (lib := chain_transport example_network)
       (json := fixed_parser (Some (example_view 1))) false
       (mkRequest "") example_session).1
    = success body "application/json"
    /\ body !! "duration_ms" = Some (JInt64 2)
    /\ body !! "error_code" = Some (JInt64 0)
    /\ body !! "expanded_url" = Some (JString "http://example.test/r1")
    /\ body !! "reached_redirect_limit" = Some (JBool true)
    /\ body !! "error_message" = None.
Proof.
  destruct (expand_url_handler_response
              (lib := chain_transport example_network)
              (json := fixed_parser (Some (example_view 1))) false
              (mkRequest "") (example_view 1) example_session
              eq_refl eq_refl)
    as (body & Hbody & Hd & Hrest).
  exists body. split; [exact Hbody|]. split; [exact Hd|]. exact Hrest.
Defined.

Lemma expand_url_handler_invalid_witness :
  (exists message,
     expand_url_handler (lib := chain_transport example_network)
       (json := fixed_parser (Some empty_view)) false
       (mkRequest "{}") example_session
     = (failure message "InvalidJSON", example_session))
  /\ performed
       (expand_url_handler (lib := chain_transport example_network)
          (json := fixed_parser (Some empty_view)) false
          (mkRequest "{}") example_session).2
     = performed example_session.
Proof.
  apply (expand_url_handler_invalid
           (lib := chain_transport example_network)
           (json := fixed_parser (Some empty_view)) false).
  right. exists empty_view. split; reflexivity.
Defined.

Lemma expand_url_handler_budgets_witness :
  let s :=
    (expand_url_handler (lib := chain_transport example_network)
       (json := fixed_parser (Some (example_view (2 ^ 32 + 1)))) false
       (mkRequest "") example_session).2 in
  opt_maxredirs <$> performed s = [1]
  /\ opt_timeout_ms <$> performed s = [300].
Proof.
  cbv zeta.
  destruct (expand_url_handler_budgets
              (lib := chain_transport example_network)
              (json := fixed_parser (Some (example_view (2 ^ 32 + 1)))) false
              (mkRequest "") (example_view (2 ^ 32 + 1)) example_session
              eq_refl eq_refl eq_refl eq_refl)
    as [-> _].
  - unfold in_long, LLONG_MIN, LLONG_MAX. simpl. lia.
  - rewrite expand_url_performed, set_request_options_state.
    split; reflexivity.
Defined.

(** ** Strings *)

Lemma length_substring s n m :
  String.length (String.substring n m s) = Nat.min m (String.length s - n).
Proof.
  revert n m. induction s as [|c s IH]; intros [|n] [|m]; simpl; auto.
  - rewrite IH. rewrite Nat.sub_0_r. reflexivity.
Qed.

Lemma length_erase_front s n :
  (String.length (erase s 0 n) = String.length s - n)%nat.
Proof.
  unfold erase. replace (String.substring 0 0 s) with EmptyString
    by (destruct s; reflexivity).
  unfold String.append. simpl. rewrite length_substring. lia.
Qed.

(** Where [find] finds the delimiter, the delimiter fits in what is left
    of the string. *)
Lemma find_bound s delimiter pos :
  find s delimiter = Some pos ->
  (pos + String.length delimiter <= String.length s)%nat
  \/ delimiter = EmptyString.
Proof.
  unfold find. intros H. apply String.index_correct1 in H.
  destruct delimiter as [|c d]; [right; reflexivity | left].
  apply (f_equal String.length) in H. rewrite length_substring in H.
  change (String.length (String c d)) with (S (String.length d)) in *. lia.
Qed.

(** The loop of [split] ends for a delimiter that is not empty. *)
Lemma split_loop_total delimiter :
  delimiter <> EmptyString ->
  forall fuel s res,
    (String.length s < fuel)%nat ->
    is_Some (split_loop fuel s delimiter res).
Proof.
  intros Hd. induction fuel as [|fuel IH]; intros s res Hlen; [lia|].
  simpl. destruct (find s delimiter) as [pos|] eqn:Hfind; [|eauto].
  apply IH. rewrite length_erase_front.
  destruct (find_bound _ _ _ Hfind) as [Hb | ->]; [|contradiction].
  destruct delimiter as [|c d]; [contradiction|].
  change (String.length (String c d)) with (S (String.length d)) in *. lia.
Qed.

Lemma split_total s delimiter :
  delimiter <> EmptyString -> is_Some (split s delimiter).
Proof. intros Hd. apply split_loop_total; [exact Hd | lia]. Qed.

(** The fields of a line are not empty. *)
Lemma split_loop_nonempty delimiter fuel :
  forall s res parts,
    split_loop fuel s delimiter res = Some parts ->
    Forall (fun field => field <> EmptyString) res ->
    Forall (fun field => field <> EmptyString) parts.
Proof.
  induction fuel as [|fuel IH]; intros s res parts; [discriminate|].
  simpl. destruct (find s delimiter) as [pos|].
  - intros H Hres. apply (IH _ _ _ H).
    destruct (substr s 0 pos) eqn:E; simpl; [exact Hres|].
    apply Forall_app. split; [exact Hres|]. repeat constructor. discriminate.
  - intros [= <-] Hres. destruct s; simpl; [exact Hres|].
    apply Forall_app. split; [exact Hres|]. repeat constructor. discriminate.
Qed.

Lemma split_nonempty s delimiter parts :
  split s delimiter = Some parts ->
  Forall (fun field => field <> EmptyString) parts.
Proof. intros H. apply (split_loop_nonempty _ _ _ _ _ H). constructor. Qed.

(** ** Runs of the process *)

Section Runs.

Context {lib : Libcurl} {json : JsonParser}.

Variable indeterminate : bool.

Lemma evolves_trans s1 s2 s3 : evolves s1 s2 -> evolves s2 s3 -> evolves s1 s3.
Proof.
  intros H12 H23. induction H23; [exact H12 | | |]; constructor; assumption.
Qed.

(** Verification stays off along a run, in the handle and in every
    transfer made. *)
Lemma evolves_insecure s s' :
  evolves s s' ->
  insecure (curl s) -> Forall insecure (performed s) ->
  insecure (curl s') /\ Forall insecure (performed s').
Proof.
  intros Hev Hc Hp.
  induction Hev as [|out url t r s' _ [IHc IHp]|l s' _ IH|l s' _ IH];
    [split; assumption | | exact IH | exact IH].
  destruct (expand_url_insecure out url t r s' IHc) as [Hafter Hduring].
  split; [exact Hafter|].
  rewrite expand_url_performed. apply Forall_app. split; [exact IHp|].
  constructor; [exact Hduring | constructor].
Qed.

Lemma evolves_reachable s s' : evolves s s' -> reachable s -> reachable s'.
Proof. intros Hev Hs. induction Hev; [exact Hs | | |]; constructor; assumption. Qed.

Lemma expand_url_transfers out url t r s :
  transfers (expand_url out url t r s).2 = transfers s ++ [url].
Proof.
  unfold transfers. rewrite expand_url_performed, set_request_options_state.
  rewrite fmap_app. destruct (0 <? r); reflexivity.
Qed.

(** The handler only resolves. *)
Lemma expand_url_handler_evolves request s :
  evolves s (expand_url_handler indeterminate request s).2.
Proof.
  destruct (JsonValue_parse (payload request)) as [v|] eqn:Hv.
  - destruct (ValueExists v "url") eqn:Hurl.
    + rewrite (expand_url_handler_resolves indeterminate request v s Hv Hurl).
      constructor. constructor.
    + unfold expand_url_handler. rewrite Hv, Hurl. constructor.
  - unfold expand_url_handler. rewrite Hv. constructor.
Qed.

Lemma run_handler_evolves requests s :
  evolves s (run_handler (expand_url_handler indeterminate) requests s).2.
Proof.
  revert s. induction requests as [|request rest IH]; intros s; [constructor|].
  simpl. run_M.
  pose proof (expand_url_handler_evolves request s) as H1.
  destruct (expand_url_handler indeterminate request s) as [response s1].
  pose proof (IH s1) as H2.
  destruct (run_handler _ rest s1) as [responses s2].
  exact (evolves_trans _ _ _ H1 H2).
Qed.

(** A line without fields is skipped. *)
Lemma process_line_empty line s :
  split line " " = Some [] -> process_line indeterminate line s = (None, s).
Proof. intros H. unfold process_line. rewrite H. reflexivity. Qed.

(** A line with a numeric field that does not convert ends the process,
    before anything is done for it. *)
Lemma process_line_throws line e s :
  conversion_error line = Some e ->
  process_line indeterminate line s = (Some (terminate e), s).
Proof.
  unfold conversion_error, process_line.
  destruct (split line " ") as [parts|]; [|discriminate].
  destruct parts as [|url fields]; [discriminate|].
  change (length (url :: fields) =? 0)%nat with false. cbv iota.
  cbv beta iota zeta delta [mbind M_bind mret M_ret gets].
  destruct (1 <? length (url :: fields))%nat.
  - destruct (stoll _) as [e1|t]; [intros [= <-]; reflexivity|].
    destruct (2 <? length (url :: fields))%nat; [|discriminate].
    destruct (stoi _) as [e2|r]; [intros [= <-]; reflexivity | discriminate].
  - destruct (2 <? length (url :: fields))%nat; [|discriminate].
    destruct (stoi _) as [e2|r]; [intros [= <-]; reflexivity | discriminate].
Qed.

(** A line with fields whose numeric fields convert gets one resolution,
    for its first field, and the loop goes on. *)
Lemma process_line_resolves line url fields s :
  split line " " = Some (url :: fields) ->
  conversion_error line = None ->
  exists s',
    process_line indeterminate line s = (None, s')
    /\ evolves s s'
    /\ transfers s' = transfers s ++ [url].
Proof.
  unfold conversion_error, process_line. intros ->.
  change (length (url :: fields) =? 0)%nat with false. cbv iota.
  cbv beta iota zeta delta [mbind M_bind mret M_ret gets Clock_now].
  change (nth 0 (url :: fields) "") with url.
  destruct (if (1 <? length (url :: fields))%nat then stoll _ else inr 0)
    as [e1|t0] eqn:Ht; [discriminate|].
  destruct (if (2 <? length (url :: fields))%nat then stoi _ else inr 0)
    as [e2|r0] eqn:Hr; [discriminate|]. intros _.
  assert (exists t, (if (1 <? length (url :: fields))%nat
                     then stoll (nth 1 (url :: fields) "")
                     else inr (default_max_time_ms s)) = inr t) as [t ->].
  { destruct (1 <? length (url :: fields))%nat; eauto. }
  assert (exists r, (if (2 <? length (url :: fields))%nat
                     then stoi (nth 2 (url :: fields) "")
                     else inr (to_int (default_max_redirects s))) = inr r)
    as [r ->].
  { destruct (2 <? length (url :: fields))%nat; eauto. }
  pose proof (expand_url_transfers (mkOutput "" indeterminate) url t r s) as Htr.
  pose proof (evolves_expand s (mkOutput "" indeterminate) url t r s
                (evolves_refl s)) as Hev.
  destruct (expand_url (mkOutput "" indeterminate) url t r s)
    as [[res out] s1].
  simpl in Htr, Hev. cbn [fst snd].
  destruct (res =? CURLE_OK); eexists; (split; [reflexivity|]);
    (split; [constructor; exact Hev | exact Htr]).
Qed.

Lemma process_line_good line s :
  conversion_error line = None ->
  exists s',
    process_line indeterminate line s = (None, s')
    /\ evolves s s'
    /\ transfers s' = transfers s ++ option_list (line_url line).
Proof.
  intros Hgood. unfold line_url.
  destruct (split_total line " " ltac:(discriminate)) as [parts Hparts].
  rewrite Hparts. destruct parts as [|url fields].
  - exists s. rewrite (process_line_empty line s Hparts), app_nil_r.
    split; [reflexivity|]. split; [constructor | reflexivity].
  - apply (process_line_resolves line url fields s Hparts Hgood).
Qed.

Lemma process_line_evolves line s :
  evolves s (process_line indeterminate line s).2.
Proof.
  destruct (conversion_error line) as [e|] eqn:He.
  - rewrite (process_line_throws line e s He). constructor.
  - destruct (process_line_good line s He) as (s' & -> & Hev & _). exact Hev.
Qed.

Lemma read_commands_evolves lines s :
  evolves s (read_commands indeterminate lines s).2.
Proof.
  revert s. induction lines as [|line rest IH]; intros s; [constructor|].
  simpl. run_M.
  pose proof (process_line_evolves line s) as H1.
  destruct (process_line indeterminate line s) as [[e|] s1]; [exact H1|].
  exact (evolves_trans _ _ _ H1 (IH s1)).
Qed.

(** Lines whose numeric fields all convert are read to the end: one
    transfer for each line that has fields, in order. *)
Lemma read_commands_runs lines s :
  Forall (fun line => conversion_error line = None) lines ->
  exists s',
    read_commands indeterminate lines s = (exit_status 0, s')
    /\ transfers s' = transfers s ++ omap line_url lines.
Proof.
  intros Hgood. revert s.
  induction Hgood as [|line rest Hline _ IH]; intros s.
  - exists s. rewrite app_nil_r. split; reflexivity.
  - destruct (process_line_good line s Hline) as (s1 & Hstep & _ & Htr).
    destruct (IH s1) as (s' & Hrest & Htr').
    exists s'. simpl. run_M.
    rewrite Hstep, Hrest. split; [reflexivity|].
    rewrite Htr', Htr, <- app_assoc. f_equal.
    destruct (line_url line); reflexivity.
Qed.

(** The first line with a numeric field that does not convert ends the
    process; the lines after it are not read. *)
Lemma read_commands_stops good bad rest e s :
  Forall (fun line => conversion_error line = None) good ->
  conversion_error bad = Some e ->
  exists s',
    read_commands indeterminate (good ++ bad :: rest) s = (terminate e, s')
    /\ transfers s' = transfers s ++ omap line_url good.
Proof.
  intros Hgood Hbad. revert s.
  induction Hgood as [|line good Hline _ IH]; intros s.
  - exists s. simpl. run_M.
    rewrite (process_line_throws bad e s Hbad), app_nil_r.
    split; reflexivity.
  - destruct (process_line_good line s Hline) as (s1 & Hstep & _ & Htr).
    destruct (IH s1) as (s' & Hrest & Htr').
    exists s'. simpl. run_M.
    rewrite Hstep, Hrest. split; [reflexivity|].
    rewrite Htr', Htr, <- app_assoc. f_equal.
    destruct (line_url line); reflexivity.
Qed.

Lemma configure_handle_performed s :
  performed (configure_handle s).2 = performed s.
Proof. reflexivity. Qed.

(** C7 (as the code has it). In batch mode, whatever the resolutions
    return: when the numeric fields of every line convert, the lines are
    read to the end of the input, each line that has fields gets one
    transfer for its URL, in the order of the input, lines without fields
    are skipped, and the process ends with status 0; and a line with a
    numeric field that does not convert, coming after such lines, ends the
    process with the exception of the conversion, the lines before it
    having been processed and no line after it. *)
Theorem main_batch env s0 :
  startup env = inr s0 ->
  getenv env "AWS_LAMBDA_FUNCTION_NAME" = None ->
  (Forall (fun line => conversion_error line = None) (stdin env) ->
   exists s,
     main indeterminate env = started (exit_status 0) [] s
     /\ transfers s = omap line_url (stdin env))
  /\ (forall good bad rest e,
        stdin env = good ++ bad :: rest ->
        Forall (fun line => conversion_error line = None) good ->
        conversion_error bad = Some e ->
        exists s,
          main indeterminate env = started (terminate e) [] s
          /\ transfers s = omap line_url good).
Proof.
  intros Hstart Hmode. unfold main. rewrite Hstart, Hmode.
  assert (Hnone : transfers (configure_handle s0).2 = []).
  { unfold transfers.
    rewrite configure_handle_performed, (startup_performed _ _ Hstart).
    reflexivity. }
  split.
  - intros Hgood.
    destruct (read_commands_runs (stdin env) (configure_handle s0).2 Hgood)
      as (s & -> & Htr).
    exists s. split; [reflexivity|]. rewrite Htr, Hnone. reflexivity.
  - intros good bad rest e -> Hgood Hbad.
    destruct (read_commands_stops good bad rest e (configure_handle s0).2
                Hgood Hbad) as (s & -> & Htr).
    exists s. split; [reflexivity|]. rewrite Htr, Hnone. reflexivity.
Qed.

(** C9. In every run that gets as far as creating the handle, in either
    mode, every transfer was made on a handle with [CURLOPT_SSL_VERIFYPEER]
    and [CURLOPT_SSL_VERIFYHOST] both 0, and they are 0 in the handle at
    the end. *)
Theorem main_never_verifies env :
  match main indeterminate env with
  | started _ _ s => Forall insecure (performed s) /\ insecure (curl s)
  | not_started _ => True
  end.
Proof.
  unfold main. destruct (startup env) as [diagnostic|s0] eqn:Hstart; [exact I|].
  assert (Hinit : insecure (curl (configure_handle s0).2)
                  /\ Forall insecure (performed (configure_handle s0).2)).
  { rewrite configure_handle_performed, (startup_performed _ _ Hstart).
    split; [split; reflexivity | constructor]. }
  destruct Hinit as [Hc Hp].
  destruct (getenv env "AWS_LAMBDA_FUNCTION_NAME").
  - pose proof (run_handler_evolves (invocations env)
                  (configure_handle s0).2) as Hev.
    destruct (run_handler _ _ _) as [responses s2].
    destruct (evolves_insecure _ _ Hev Hc Hp). split; assumption.
  - pose proof (read_commands_evolves (stdin env) (configure_handle s0).2)
      as Hev.
    destruct (read_commands _ _ _) as [e s2].
    destruct (evolves_insecure _ _ Hev Hc Hp). split; assumption.
Qed.

End Runs.

Lemma main_batch_witness :
  exists s,
    main (lib := chain_transport example_network) (json := fixed_parser None)
      false
      (batch_environment
         ["http://example.test/r3 100 1"; "";
          "http://unreachable.test/ 100"; "http://example.test/r2"])
    = started (exit_status 0) [] s
    /\ transfers s
       = ["http://example.test/r3"; "http://unreachable.test/";
          "http://example.test/r2"].
Proof.
  destruct (main_batch (lib := chain_transport example_network)
              (json := fixed_parser None) false
              (batch_environment
                 ["http://example.test/r3 100 1"; "";
                  "http://unreachable.test/ 100"; "http://example.test/r2"])
              (mkState curl_easy_init 500 5 500 0 [] [] [])
              eq_refl eq_refl) as [H _].
  apply H. repeat constructor.
Defined.

(** C7 (as stated) fails: with a first line whose time budget is not a
    number and a second, well-formed line, the process does not skip the
    first line: it ends with [std::invalid_argument], without a transfer
    or an output line for the second. *)
Lemma main_batch_malformed_number_aborts :
  match
    main (lib := chain_transport example_network) (json := fixed_parser None)
      false
      (batch_environment
         ["http://example.test/r3 abc"; "http://example.test/r2"])
  with
  | started e _ s =>
      e = terminate invalid_argument
      /\ transfers s = [] /\ stdout s = [] /\ stderr s = []
  | not_started _ => False
  end.
Proof. vm_compute. repeat split; reflexivity. Qed.

(** A Lambda process that receives the same request twice, asking for [r3]
    with a redirect budget of 1, answers both with the target of the second
    hop and has made two transfers, both without verification. *)
Example main_lambda_two_requests :
  match
    main (lib := chain_transport example_network)
      (json := fixed_parser (Some (example_view 1))) false
      (lambda_environment [mkRequest "first"; mkRequest "second"])
  with
  | started e responses s =>
      e = exit_status 0
      /\ (fun response =>
            match response with
            | success body _ => body !! "expanded_url"
            | failure _ _ => None
            end) <$> responses
         = [Some (JString "http://example.test/r1");
            Some (JString "http://example.test/r1")]
      /\ transfers s = ["http://example.test/r3"; "http://example.test/r3"]
      /\ opt_ssl_verifypeer <$> performed s = [0; 0]
  | not_started _ => False
  end.
Proof. vm_compute. repeat split; reflexivity. Qed.

(** ** More on [split] *)

Lemma length_append a b :
  String.length (a +:+ b) = (String.length a + String.length b)%nat.
Proof. induction a as [|c a IH]; simpl; [reflexivity | rewrite IH; reflexivity]. Qed.

Lemma substring_prefix_of_prefix s p n pos :
  (p + n <= pos)%nat ->
  String.substring p n (String.substring 0 pos s) = String.substring p n s.
Proof.
  revert p n pos. induction s as [|c s IH]; intros p n pos Hle.
  - destruct pos; destruct p, n; reflexivity.
  - destruct pos as [|pos].
    + assert (p = 0 /\ n = 0)%nat as [-> ->] by lia. reflexivity.
    + cbn [String.substring]. destruct p as [|p].
      * destruct n as [|n]; [reflexivity|].
        cbn [String.substring]. f_equal. apply (IH 0%nat). lia.
      * cbn [String.substring]. apply IH. lia.
Qed.

(** The part of the string before the first delimiter does not contain
    the delimiter. *)
Lemma find_prefix_free s delimiter pos :
  delimiter <> EmptyString ->
  find s delimiter = Some pos ->
  find (substr s 0 pos) delimiter = None.
Proof.
  intros Hd Hfind. unfold find, substr in *.
  destruct (String.index 0 delimiter (String.substring 0 pos s)) as [p|] eqn:Hp;
    [|reflexivity].
  exfalso.
  pose proof (String.index_correct1 _ _ _ _ Hp) as Hocc.
  pose proof (f_equal String.length Hocc) as Hlen.
  rewrite !length_substring in Hlen.
  destruct delimiter as [|c d]; [contradiction|].
  change (String.length (String c d)) with (S (String.length d)) in *.
  apply (String.index_correct2 _ _ _ _ Hfind p); [lia | lia |].
  change (String.length (String c d)) with (S (String.length d)).
  rewrite <- Hocc. symmetry. apply substring_prefix_of_prefix. lia.
Qed.

Lemma split_loop_fields delimiter fuel :
  delimiter <> EmptyString ->
  forall s res parts,
    split_loop fuel s delimiter res = Some parts ->
    Forall (fun field => field <> EmptyString /\ find field delimiter = None)
      res ->
    Forall (fun field => field <> EmptyString /\ find field delimiter = None)
      parts.
Proof.
  intros Hd. induction fuel as [|fuel IH]; intros s res parts; [discriminate|].
  simpl. destruct (find s delimiter) as [pos|] eqn:Hfind.
  - intros H Hres. apply (IH _ _ _ H).
    pose proof (find_prefix_free s delimiter pos Hd Hfind) as Hfree.
    destruct (substr s 0 pos) eqn:E; simpl; [exact Hres|].
    apply Forall_app. split; [exact Hres|].
    constructor; [|constructor]. split; [discriminate | exact Hfree].
  - intros [= <-] Hres. destruct s; simpl; [exact Hres|].
    apply Forall_app. split; [exact Hres|].
    constructor; [|constructor]. split; [discriminate | exact Hfind].
Qed.

(** X1. For a delimiter that is not empty [split] returns, and each of the
    fields it returns is non-empty and does not contain the delimiter. *)
Theorem split_returns_clean_fields s delimiter :
  delimiter <> EmptyString ->
  exists parts,
    split s delimiter = Some parts
    /\ Forall (fun field => field <> EmptyString
                            /\ find field delimiter = None) parts.
Proof.
  intros Hd. destruct (split_total s delimiter Hd) as [parts Hparts].
  exists parts. split; [exact Hparts|].
  apply (split_loop_fields delimiter _ Hd _ _ _ Hparts). constructor.
Qed.

Lemma split_returns_clean_fields_witness :
  exists parts,
    split "  http://example.test/r3   100 1 " " " = Some parts
    /\ Forall (fun field => field <> EmptyString /\ find field " " = None)
         parts.
Proof.
  apply (split_returns_clean_fields "  http://example.test/r3   100 1 " " ").
  discriminate.
Defined.

Lemma find_empty_delimiter s : find s "" = Some 0%nat.
Proof. destruct s; reflexivity. Qed.

Lemma erase_nothing s : erase s 0 0 = s.
Proof.
  unfold erase. replace (String.substring 0 0 s) with EmptyString
    by (destruct s; reflexivity).
  unfold String.append. simpl. rewrite Nat.sub_0_r.
  induction s as [|c s IH]; [reflexivity|]. simpl. rewrite IH. reflexivity.
Qed.

(** X2. With the empty delimiter the loop of [split] makes no progress:
    no number of iterations brings it to its end, whatever the string. *)
Theorem split_empty_delimiter_never_returns fuel s res :
  split_loop fuel s "" res = None.
Proof.
  revert res. induction fuel as [|fuel IH]; intros res; [reflexivity|].
  simpl. rewrite find_empty_delimiter.
  replace (substr s 0 0) with EmptyString by (destruct s; reflexivity).
  simpl. rewrite erase_nothing. apply IH.
Qed.

(** *** One-character delimiters *)

Lemma find_char_cons c b s :
  find (String b s) (String c "")
  = if Ascii.eqb b c then Some 0%nat else S <$> find s (String c "").
Proof.
  unfold find. cbn [String.index String.prefix].
  destruct (ascii_dec c b) as [->|Hne].
  - rewrite Ascii.eqb_refl. destruct s; reflexivity.
  - destruct (Ascii.eqb b c) eqn:E.
    + apply Ascii.eqb_eq in E. congruence.
    + destruct (String.index 0 (String c "") s); reflexivity.
Qed.

Lemma append_empty_r s : s +:+ "" = s.
Proof.
  induction s as [|c s IH]; [reflexivity|].
  change (String c s +:+ "") with (String c (s +:+ "")). rewrite IH. reflexivity.
Qed.

Lemma append_assoc a b c : (a +:+ b) +:+ c = a +:+ (b +:+ c).
Proof.
  induction a as [|x a IH]; [reflexivity|].
  change (String x ((a +:+ b) +:+ c) = String x (a +:+ (b +:+ c))).
  rewrite IH. reflexivity.
Qed.

(** A token without the delimiter, followed by the delimiter: that is
    where [find] finds it. *)
Lemma find_after_token c token rest :
  find token (String c "") = None ->
  find (token +:+ String c rest) (String c "") = Some (String.length token).
Proof.
  induction token as [|a token IH]; intros Hfree.
  - change ("" +:+ String c rest) with (String c rest).
    rewrite find_char_cons, Ascii.eqb_refl. reflexivity.
  - rewrite find_char_cons in Hfree.
    change (String a token +:+ String c rest)
      with (String a (token +:+ String c rest)).
    rewrite find_char_cons.
    destruct (Ascii.eqb a c); [discriminate|].
    destruct (find token (String c "")) eqn:E; [discriminate|].
    rewrite (IH eq_refl). reflexivity.
Qed.

Lemma find_token_grows c token b :
  find token (String c "") = None ->
  Ascii.eqb b c = false ->
  find (token +:+ String b "") (String c "") = None.
Proof.
  induction token as [|a token IH]; intros Hfree Hb.
  - change ("" +:+ String b "") with (String b "").
    rewrite find_char_cons, Hb. reflexivity.
  - rewrite find_char_cons in Hfree.
    change (String a token +:+ String b "")
      with (String a (token +:+ String b "")).
    rewrite find_char_cons.
    destruct (Ascii.eqb a c); [discriminate|].
    destruct (find token (String c "")) eqn:E; [discriminate|].
    rewrite (IH eq_refl Hb). reflexivity.
Qed.

Lemma substr_token token rest :
  substr (token +:+ rest) 0 (String.length token) = token.
Proof.
  unfold substr. induction token as [|a token IH].
  - destruct rest; reflexivity.
  - change (String a token +:+ rest) with (String a (token +:+ rest)).
    cbn [String.length String.substring]. rewrite IH. reflexivity.
Qed.

Lemma erase_token token c rest :
  erase (token +:+ String c rest) 0 (String.length token + 1) = rest.
Proof.
  unfold erase.
  replace (String.substring 0 0 (token +:+ String c rest)) with EmptyString
    by (destruct (token +:+ String c rest); reflexivity).
  unfold String.append at 1. cbn [Nat.add].
  rewrite length_append.
  change (String.length (String c rest)) with (S (String.length rest)).
  replace (String.length token + S (String.length rest)
           - (String.length token + 1))%nat
    with (String.length rest) by lia.
  induction token as [|a token IH].
  - change ("" +:+ String c rest) with (String c rest).
    cbn [String.length Nat.add String.substring].
    clear. induction rest as [|b rest IH]; [reflexivity|].
    cbn [String.length String.substring]. rewrite IH. reflexivity.
  - change (String a token +:+ String c rest)
      with (String a (token +:+ String c rest)).
    cbn [String.length Nat.add String.substring]. exact IH.
Qed.

Lemma split_loop_fields_from c :
  forall s token res fuel,
    find token (String c "") = None ->
    (String.length (token +:+ s) < fuel)%nat ->
    split_loop fuel (token +:+ s) (String c "") res
    = Some (res ++ fields_from c s token).
Proof.
  induction s as [|b s IH]; intros token res fuel Hfree Hfuel.
  - rewrite append_empty_r in *. destruct fuel as [|fuel]; [lia|].
    simpl. rewrite Hfree.
    destruct (0 <? String.length token)%nat; [reflexivity|].
    rewrite app_nil_r. reflexivity.
  - cbn [fields_from]. destruct (Ascii.eqb b c) eqn:Hb.
    + apply Ascii.eqb_eq in Hb. subst b.
      destruct fuel as [|fuel]; [lia|].
      cbn [split_loop]. rewrite (find_after_token c token s Hfree).
      rewrite substr_token.
      change (String.length (String c "")) with 1%nat.
      rewrite erase_token.
      rewrite length_append in Hfuel.
      change (String.length (String c s)) with (S (String.length s)) in Hfuel.
      pose proof (fun res' => IH "" res' fuel eq_refl) as IH'.
      change ("" +:+ s) with s in IH'. rewrite IH' by lia.
      destruct (0 <? String.length token)%nat;
        [rewrite <- app_assoc|]; reflexivity.
    + replace (token +:+ String b s) with ((token +:+ String b "") +:+ s)
        in * by (rewrite append_assoc; reflexivity).
      apply IH; [apply find_token_grows; assumption | exact Hfuel].
Qed.

(** X3. For a one-character delimiter [split] returns the maximal runs of
    characters other than the delimiter, in order: what a
    character-by-character reading of the string collects. *)
Theorem split_char_fields c s :
  split s (String c "") = Some (fields c s).
Proof.
  unfold split, fields.
  apply (split_loop_fields_from c s "" [] (S (String.length s)) eq_refl).
  change ("" +:+ s) with s. lia.
Qed.

(** ** More on the resolver *)

Section ResolverMore.

Context {lib : Libcurl}.

(** X4. Whatever its transfer returns, a resolution makes exactly one
    transfer, for the URL and with the time budget of the call; it writes
    nothing to standard output, and one line to standard error exactly
    when the transfer returned a code other than [CURLE_OK], the
    redirect-cap failure it goes on to report as a success included; the
    clock moves by the time of that transfer. *)
Theorem expand_url_single_transfer out url t r s :
  let s' := (expand_url out url t r s).2 in
  let o := transfer (set_request_options url t r s).2 in
  (exists h, performed s' = performed s ++ [h]
             /\ opt_url h = url /\ opt_timeout_ms h = t)
  /\ stdout s' = stdout s
  /\ stderr s'
     = (if code o =? CURLE_OK then stderr s
        else stderr s
             ++ [perform_failed (code o) (curl_easy_strerror (code o))])
  /\ clock_ns s' = clock_ns s + elapsed_ns o.
Proof.
  cbv zeta. rewrite expand_url_performed, expand_url_state. cbv zeta.
  generalize (transfer (set_request_options url t r s).2) as o; intros o.
  rewrite set_request_options_state.
  split.
  - eexists. split; [reflexivity|]. destruct (0 <? r); split; reflexivity.
  - destruct (code o =? CURLE_OK); repeat split; reflexivity.
Qed.

(** X5. A transfer that fails with a code other than the redirect-cap one
    is not interpreted: [expand_url] returns that code and leaves its
    output parameters as they were. *)
Theorem expand_url_failure_verbatim out url t r s :
  code (transfer (set_request_options url t r s).2) <> CURLE_OK ->
  code (transfer (set_request_options url t r s).2)
  <> CURLE_TOO_MANY_REDIRECTS ->
  (expand_url out url t r s).1
  = (code (transfer (set_request_options url t r s).2), out).
Proof.
  intros Hok Htm. rewrite expand_url_result. unfold classify.
  apply Z.eqb_neq in Hok. apply Z.eqb_neq in Htm. rewrite Hok, Htm.
  reflexivity.
Qed.

(** X6. When [expand_url] returns [CURLE_OK], the limit flag tells which
    URL it returned: with the flag on, the next-hop URL the transfer left;
    with the flag off, its effective URL, no next hop being retrievable.
    The next hop has precedence also when the transfer itself returned
    [CURLE_OK]. *)
Theorem expand_url_flag out url t r s :
  let o := transfer (set_request_options url t r s).2 in
  let result := (expand_url out url t r s).1 in
  result.1 = CURLE_OK ->
  (reached_redirect_limit result.2 = true
   /\ redirect_url o = Some (output_url result.2))
  \/ (reached_redirect_limit result.2 = false
      /\ redirect_url o = None
      /\ effective_url o = Some (output_url result.2)).
Proof.
  cbv zeta. rewrite expand_url_result. unfold classify.
  generalize (transfer (set_request_options url t r s).2) as o; intros o.
  destruct ((code o =? CURLE_OK) || (code o =? CURLE_TOO_MANY_REDIRECTS))
    eqn:Hc.
  - destruct (redirect_url o) as [u|], (effective_url o) as [e|]; cbn;
      intros H; try discriminate; auto.
  - cbn. intros H. rewrite H in Hc. discriminate.
Qed.

(** X7. A redirect budget below zero is a budget of zero: the two calls
    return the same and leave the same state. *)
Theorem expand_url_negative_budget out url t r s :
  r <= 0 -> expand_url out url t r s = expand_url out url t 0 s.
Proof.
  intros Hr. rewrite !expand_url_run. cbv zeta.
  rewrite !set_request_options_state.
  replace (0 <? r) with false by (symmetry; apply Z.ltb_ge; lia).
  reflexivity.
Qed.

(** X9. Two resolutions in a row on the same handle: the transfer of the
    second runs with its own time budget as [CURLOPT_TIMEOUT_MS] and with
    the time budget of the first as [CURLOPT_CONNECTTIMEOUT_MS]. *)
Theorem expand_url_connect_timeout_carries out1 url1 t1 r1 out2 url2 t2 r2 s :
  let s1 := (expand_url out1 url1 t1 r1 s).2 in
  let s2 := (expand_url out2 url2 t2 r2 s1).2 in
  exists h1 h2,
    performed s2 = performed s ++ [h1; h2]
    /\ opt_timeout_ms h2 = t2
    /\ opt_connecttimeout_ms h2 = t1.
Proof.
  cbv zeta. rewrite !expand_url_performed, <- app_assoc.
  do 2 eexists. split; [reflexivity|].
  rewrite (set_request_options_state url2). cbn [curl with_curl].
  rewrite expand_url_curl. destruct (0 <? r2); split; reflexivity.
Qed.

End ResolverMore.

Lemma expand_url_failure_verbatim_witness :
  (expand_url
     (lib := fixed_transport (mkOutcome CURLE_COULDNT_CONNECT None None 1000))
     (mkOutput "" false) "http://unreachable.test/" 500 5 example_session).1
  = (CURLE_COULDNT_CONNECT, mkOutput "" false).
Proof.
  apply (expand_url_failure_verbatim
           (lib := fixed_transport
                     (mkOutcome CURLE_COULDNT_CONNECT None None 1000))
           (mkOutput "" false) "http://unreachable.test/" 500 5
           example_session);
    discriminate.
Defined.

Lemma expand_url_flag_witness :
  let result :=
    (expand_url (lib := chain_transport example_network) (mkOutput "" false)
       "http://example.test/r1" 500 0 example_session).1 in
  reached_redirect_limit result.2 = true
  /\ output_url result.2 = "http://example.test/final".
Proof.
  cbv zeta.
  destruct (expand_url_flag (lib := chain_transport example_network)
              (mkOutput "" false) "http://example.test/r1" 500 0
              example_session eq_refl)
    as [[Hflag Hurl] | [Hflag _]].
  - split; [exact Hflag | reflexivity].
  - discriminate Hflag.
Defined.

Lemma expand_url_negative_budget_witness :
  expand_url (lib := chain_transport example_network) (mkOutput "" false)
    "http://example.test/r3" 500 (-1) example_session
  = expand_url (lib := chain_transport example_network) (mkOutput "" false)
      "http://example.test/r3" 500 0 example_session.
Proof.
  apply (expand_url_negative_budget (lib := chain_transport example_network)).
  lia.
Defined.

(** ** More on redirect chains *)

(** What a resolution over redirect chains returns, by the handle it finds:
    only whether that handle follows redirects matters, and only for a
    budget that is not positive. *)
Lemma expand_url_chain_result net out url t m s :
  follow_off (curl s) ->
  (expand_url (lib := chain_transport net) out url t m s).1
  = let chain := chain_of net url in
    if 0 <? m then
      if Z.of_nat (length chain) <=? m
      then (CURLE_OK, mkOutput (List.last chain url) false)
      else match chain !! Z.to_nat m with
           | Some hop => (CURLE_OK, mkOutput hop true)
           | None => (CURLE_OK, mkOutput (List.last (take (Z.to_nat m) chain) url) false)
           end
    else
      match chain with
      | hop :: _ => (CURLE_OK, mkOutput hop true)
      | [] => (CURLE_OK, mkOutput url false)
      end.
Proof.
  unfold follow_off. intros Hf.
  rewrite expand_url_result, set_request_options_state.
  unfold classify. cbn [transfer chain_transport]. unfold chain_outcome.
  cbv zeta. destruct (0 <? m) eqn:Hpos.
  - apply Z.ltb_lt in Hpos. simpl.
    replace (m <? 0) with false by (symmetry; apply Z.ltb_ge; lia).
    simpl. destruct (Z.of_nat (length (chain_of net url)) <=? m);
      [reflexivity|].
    simpl. destruct (chain_of net url !! Z.to_nat m); reflexivity.
  - simpl. rewrite Hf. simpl. destruct (chain_of net url); reflexivity.
Qed.



Lemma last_nonempty_default {A : Type} (a : A) (l : list A) (x d : A) :
  List.last (a :: l) x = List.last (a :: l) d.
Proof.
  revert a. induction l as [|b l IH]; intros a; [reflexivity|].
  change (List.last (b :: l) x = List.last (b :: l) d). apply IH.
Qed.

Lemma last_drop_lookup {A : Type} (l : list A) (n : nat) (x d : A) :
  l !! n = Some x -> List.last (drop (S n) l) x = List.last l d.
Proof.
  revert n d. induction l as [|a l IH]; intros n d Hn; [discriminate|].
  destruct n as [|n].
  - simpl in Hn. injection Hn as Ha. subst a.
    change (drop 1 (x :: l)) with l.
    destruct l as [|b l]; [reflexivity|].
    change (List.last (x :: b :: l) d) with (List.last (b :: l) d).
    apply last_nonempty_default.
  - simpl in Hn. change (drop (S (S n)) (a :: l)) with (drop (S n) l).
    rewrite (IH n a Hn). destruct l as [|b l]; [discriminate|].
    change (List.last (a :: b :: l) d) with (List.last (b :: l) d).
    apply last_nonempty_default.
Qed.

(** X10. Over redirect chains, in a network where the chain of a URL on a
    chain is the rest of that chain: when a resolution with budget [m]
    stops at the limit with the next hop [hop], resolving [hop] with
    budget [m'] gives what resolving the first URL with budget
    [m + m' + 1] gives. *)
Theorem expand_url_resume net out out' url t t' t'' m m' hop s s' s'' :
  reachable (lib := chain_transport net) s ->
  reachable (lib := chain_transport net) s' ->
  reachable (lib := chain_transport net) s'' ->
  0 <= m -> 0 <= m' ->
  chain_of net url !! Z.to_nat m = Some hop ->
  chain_of net hop = drop (S (Z.to_nat m)) (chain_of net url) ->
  (expand_url (lib := chain_transport net) out url t m s).1
  = (CURLE_OK, mkOutput hop true)
  /\ (expand_url (lib := chain_transport net) out' hop t' m' s').1
     = (expand_url (lib := chain_transport net) out' url t'' (m + m' + 1) s'').1.
Proof.
  intros Hs Hs' Hs'' Hm Hm' Hhop Hrest.
  destruct (reachable_idle s Hs) as [Hf _].
  destruct (reachable_idle s' Hs') as [Hf' _].
  destruct (reachable_idle s'' Hs'') as [Hf'' _].
  rewrite !expand_url_chain_result by assumption. cbv zeta.
  rewrite Hrest. set (chain := chain_of net url) in *.
  pose proof (lookup_lt_Some _ _ _ Hhop) as Hlt.
  split.
  - destruct (0 <? m) eqn:Hpos.
    + replace (Z.of_nat (length chain) <=? m) with false
        by (symmetry; apply Z.leb_gt; lia).
      rewrite Hhop. reflexivity.
    + apply Z.ltb_ge in Hpos. assert (m = 0) by lia. subst m.
      simpl in Hhop. destruct chain; [discriminate|].
      injection Hhop as ->. reflexivity.
  - replace (0 <? m + m' + 1) with true by (symmetry; apply Z.ltb_lt; lia).
    rewrite length_drop.
    destruct (0 <? m') eqn:Hpos'.
    + apply Z.ltb_lt in Hpos'.
      destruct (Z.of_nat (length chain) <=? m + m' + 1) eqn:Hle.
      * apply Z.leb_le in Hle.
        replace (Z.of_nat (length chain - S (Z.to_nat m)) <=? m') with true
          by (symmetry; apply Z.leb_le; lia).
        rewrite (last_drop_lookup chain _ hop url Hhop). reflexivity.
      * apply Z.leb_gt in Hle.
        replace (Z.of_nat (length chain - S (Z.to_nat m)) <=? m') with false
          by (symmetry; apply Z.leb_gt; lia).
        rewrite lookup_drop.
        replace (S (Z.to_nat m) + Z.to_nat m')%nat
          with (Z.to_nat (m + m' + 1)) by lia.
        destruct (chain !! Z.to_nat (m + m' + 1)) eqn:Hnext; [reflexivity|].
        apply lookup_ge_None in Hnext. lia.
    + apply Z.ltb_ge in Hpos'. assert (m' = 0) by lia. subst m'.
      replace (m + 0 + 1) with (m + 1) by lia.
      destruct (drop (S (Z.to_nat m)) chain) as [|next rest] eqn:Hdrop.
      * assert (length (drop (S (Z.to_nat m)) chain) = 0%nat) as Hlen
          by (rewrite Hdrop; reflexivity).
        rewrite length_drop in Hlen.
        replace (Z.of_nat (length chain) <=? m + 1) with true
          by (symmetry; apply Z.leb_le; lia).
        rewrite <- (last_drop_lookup chain _ hop url Hhop), Hdrop.
        reflexivity.
      * assert (length (drop (S (Z.to_nat m)) chain) = S (length rest)) as Hlen
          by (rewrite Hdrop; reflexivity).
        rewrite length_drop in Hlen.
        replace (Z.of_nat (length chain) <=? m + 1) with false
          by (symmetry; apply Z.leb_gt; lia).
        replace (Z.to_nat (m + 1)) with (S (Z.to_nat m) + 0)%nat by lia.
        rewrite <- lookup_drop, Hdrop. reflexivity.
Qed.

Lemma expand_url_resume_witness :
  (expand_url (lib := chain_transport example_network) (mkOutput "" false)
     "http://example.test/r3" 500 0 example_session).1
  = (CURLE_OK, mkOutput "http://example.test/r2" true)
  /\ (expand_url (lib := chain_transport example_network) (mkOutput "" false)
        "http://example.test/r2" 500 1 example_session).1
     = (expand_url (lib := chain_transport example_network)
          (mkOutput "" false) "http://example.test/r3" 500 (0 + 1 + 1)
          example_session).1.
Proof.
  apply (expand_url_resume example_network (mkOutput "" false)
           (mkOutput "" false) "http://example.test/r3" 500 500 500 0 1
           "http://example.test/r2" example_session example_session
           example_session);
    try (apply (reach_configured (batch_environment [])); reflexivity);
    try lia; reflexivity.
Defined.

(** ** More on the runs of the process *)

Section RunsMore.

Context {lib : Libcurl} {json : JsonParser}.

Variable indeterminate : bool.

(** A property of the handle that the options of a request and the
    outcome of a transfer do not disturb holds all along a run, in the
    handle and in the handle of every transfer. *)
Lemma evolves_handle_invariant (P : CURL -> Prop) s s' :
  (forall o h, request_option o -> P h -> P (setopt o h)) ->
  (forall o h, P h -> P (record_outcome o h)) ->
  evolves s s' ->
  P (curl s) -> Forall P (performed s) ->
  P (curl s') /\ Forall P (performed s').
Proof.
  intros Hset Hrec Hev Hc Hp.
  induction Hev as [|out url t r s' _ [IHc IHp]|l s' _ IH|l s' _ IH];
    [split; assumption | | exact IH | exact IH].
  assert (Hduring : P (curl (set_request_options url t r s').2)).
  { rewrite set_request_options_state. cbn [curl with_curl].
    destruct (0 <? r); repeat (apply Hset; [exact I|]); exact IHc. }
  split.
  - rewrite expand_url_curl. cbv zeta.
    repeat (apply Hset; [exact I|]). apply Hrec. exact Hduring.
  - rewrite expand_url_performed. apply Forall_app. split; [exact IHp|].
    constructor; [exact Hduring | constructor].
Qed.

Lemma evolves_max_connections s s' :
  evolves s s' -> max_connections s' = max_connections s.
Proof.
  induction 1 as [|out url t r s' _ IH|l s' _ IH|l s' _ IH];
    [reflexivity | | exact IH | exact IH].
  destruct (expand_url_globals out url t r s') as [-> _]. exact IH.
Qed.

(** The run of [main] after the handle is configured, in either mode. *)
Lemma main_started env s0 :
  startup env = inr s0 ->
  exists e responses s,
    main indeterminate env = started e responses s
    /\ evolves (configure_handle s0).2 s.
Proof.
  intros Hstart. unfold main. rewrite Hstart.
  destruct (getenv env "AWS_LAMBDA_FUNCTION_NAME").
  - pose proof (run_handler_evolves indeterminate (invocations env)
                  (configure_handle s0).2) as Hev.
    destruct (run_handler _ _ _) as [responses s2]. eauto.
  - pose proof (read_commands_evolves indeterminate (stdin env)
                  (configure_handle s0).2) as Hev.
    destruct (read_commands _ _ _) as [e s2]. eauto.
Qed.

Lemma main_started_inv env e responses s :
  main indeterminate env = started e responses s ->
  exists s0, startup env = inr s0 /\ evolves (configure_handle s0).2 s.
Proof.
  intros Hmain. destruct (startup env) as [d|s0] eqn:Hstart.
  - unfold main in Hmain. rewrite Hstart in Hmain. discriminate.
  - exists s0. split; [reflexivity|].
    destruct (main_started env s0 Hstart) as (e' & rs' & s' & Hrun & Hev).
    rewrite Hrun in Hmain. injection Hmain as _ _ <-. exact Hev.
Qed.

(** X14. In every run, in either mode, every transfer is a HEAD request
    whose body, if any, goes to [do_nothing], on a handle whose connection
    cache has the size configured at startup. *)
Theorem main_always_head env :
  match main indeterminate env with
  | started _ _ s =>
      Forall (head_request (max_connections s)) (performed s)
      /\ head_request (max_connections s) (curl s)
  | not_started _ => True
  end.
Proof.
  destruct (main indeterminate env) as [d|e responses s] eqn:Hmain;
    [exact I|].
  destruct (main_started_inv env e responses s Hmain) as (s0 & Hstart & Hev).
  rewrite (evolves_max_connections _ _ Hev).
  change (max_connections (configure_handle s0).2) with (max_connections s0).
  destruct (evolves_handle_invariant (head_request (max_connections s0))
              _ _
              ltac:(intros [] h Ho Hh; try contradiction; exact Hh)
              ltac:(intros o h Hh; exact Hh)
              Hev) as [Hc Hp].
  - repeat split; reflexivity.
  - rewrite configure_handle_performed, (startup_performed _ _ Hstart).
    constructor.
  - split; assumption.
Qed.

(** X15. In no run does a transfer follow redirects without a cap: every
    transfer runs either with redirects not followed or with them followed
    up to a positive maximum. *)
Theorem main_never_follows_uncapped env :
  match main indeterminate env with
  | started _ _ s => Forall capped (performed s)
  | not_started _ => True
  end.
Proof.
  destruct (main indeterminate env) as [d|e responses s] eqn:Hmain;
    [exact I|].
  destruct (main_started_inv env e responses s Hmain) as (s0 & Hstart & Hev).
  assert (Hinv : follow_off (curl s) /\ Forall capped (performed s));
    [|exact (proj2 Hinv)].
  assert (H0 : follow_off (curl (configure_handle s0).2)
               /\ Forall capped (performed (configure_handle s0).2)).
  { rewrite configure_handle_performed, (startup_performed _ _ Hstart).
    rewrite configure_handle_curl, (startup_curl _ _ Hstart).
    split; [reflexivity | constructor]. }
  clear Hmain. induction Hev as [|out url t r s' _ IH|l s' _ IH|l s' _ IH];
    [exact H0 | | exact IH | exact IH].
  destruct IH as [IHc IHp]. split; [apply expand_url_follow_off|].
  rewrite expand_url_performed, set_request_options_state.
  apply Forall_app. split; [exact IHp|]. constructor; [|constructor].
  unfold capped, follow_off in *. cbn [curl with_curl].
  destruct (0 <? r) eqn:Hr.
  - right. apply Z.ltb_lt in Hr. split; [reflexivity | exact Hr].
  - left. exact IHc.
Qed.

(** The handler makes a transfer for the URL of the request, or none. *)
Lemma expand_url_handler_transfers request s :
  transfers (expand_url_handler indeterminate request s).2
  = transfers s ++ option_list (request_url request).
Proof.
  unfold request_url.
  destruct (JsonValue_parse (payload request)) as [v|] eqn:Hv.
  - destruct (ValueExists v "url") eqn:Hurl.
    + rewrite (expand_url_handler_resolves indeterminate request v s Hv Hurl).
      cbv zeta. cbn [snd]. apply expand_url_transfers.
    + unfold expand_url_handler. rewrite Hv, Hurl. cbn.
      rewrite app_nil_r. reflexivity.
  - unfold expand_url_handler. rewrite Hv. cbn.
    rewrite app_nil_r. reflexivity.
Qed.

(** The kind of the response follows the request alone. *)
Lemma expand_url_handler_kind request s :
  match request_url request with
  | Some _ =>
      exists body,
        (expand_url_handler indeterminate request s).1
        = success body "application/json"
  | None =>
      exists message,
        (expand_url_handler indeterminate request s).1
        = failure message "InvalidJSON"
  end.
Proof.
  unfold request_url.
  destruct (JsonValue_parse (payload request)) as [v|] eqn:Hv.
  - destruct (ValueExists v "url") eqn:Hurl.
    + rewrite (expand_url_handler_resolves indeterminate request v s Hv Hurl).
      cbv zeta. cbn [fst]. eauto.
    + unfold expand_url_handler. rewrite Hv, Hurl. cbn. eauto.
  - unfold expand_url_handler. rewrite Hv. cbn. eauto.
Qed.

Lemma run_handler_responses requests s :
  let r := run_handler (expand_url_handler indeterminate) requests s in
  Forall2
    (fun request response =>
       match request_url request with
       | Some _ => exists body, response = success body "application/json"
       | None => exists message, response = failure message "InvalidJSON"
       end)
    requests r.1
  /\ transfers r.2 = transfers s ++ omap request_url requests.
Proof.
  cbv zeta. revert s. induction requests as [|request rest IH]; intros s.
  - simpl. rewrite app_nil_r. split; [constructor | reflexivity].
  - simpl. run_M.
    pose proof (expand_url_handler_kind request s) as Hkind.
    pose proof (expand_url_handler_transfers request s) as Htr.
    destruct (expand_url_handler indeterminate request s) as [response s1].
    destruct (IH s1) as [Hrest Htr'].
    destruct (run_handler _ rest s1) as [responses s2].
    cbn [fst snd] in *. split.
    + constructor; [exact Hkind | exact Hrest].
    + rewrite Htr', Htr, <- app_assoc. f_equal.
      destruct (request_url request); reflexivity.
Qed.

(** X13. In Lambda mode the process answers every invocation, in order:
    with a success response when the payload parses and has a [url]
    field, with an [InvalidJSON] failure otherwise; it makes one transfer
    for each invocation of the first kind, for its URL, and none for the
    others; and [main] returns 0 after the last one, whatever is on
    standard input. *)
Theorem main_lambda env s0 name :
  startup env = inr s0 ->
  getenv env "AWS_LAMBDA_FUNCTION_NAME" = Some name ->
  exists responses s,
    main indeterminate env = started (exit_status 0) responses s
    /\ Forall2
         (fun request response =>
            match request_url request with
            | Some _ =>
                exists body, response = success body "application/json"
            | None => exists message, response = failure message "InvalidJSON"
            end)
         (invocations env) responses
    /\ transfers s = omap request_url (invocations env).
Proof.
  intros Hstart Hmode. unfold main. rewrite Hstart, Hmode.
  pose proof (run_handler_responses (invocations env) (configure_handle s0).2)
    as [Hkinds Htr].
  destruct (run_handler _ _ _) as [responses s].
  exists responses, s. split; [reflexivity|]. split; [exact Hkinds|].
  cbn [snd] in Htr. rewrite Htr. unfold transfers.
  rewrite configure_handle_performed, (startup_performed _ _ Hstart).
  reflexivity.
Qed.





(** X12. When [curl_global_init] fails, or when it succeeds and
    [curl_easy_init] gives no handle, the process stops with the
    corresponding diagnostic before reading any input; otherwise it
    goes on into one of its two modes. *)
Theorem main_startup_failure env :
  (curl_global_init env <> CURLE_OK ->
   main indeterminate env
   = not_started (global_init_failed (curl_global_init env)
                    (curl_easy_strerror (curl_global_init env))))
  /\ (curl_global_init env = CURLE_OK ->
      curl_easy_init_succeeds env = false ->
      main indeterminate env = not_started handle_creation_failed)
  /\ (curl_global_init env = CURLE_OK ->
      curl_easy_init_succeeds env = true ->
      exists e responses s, main indeterminate env = started e responses s).
Proof.
  split; [|split].
  - intros Hne. apply Z.eqb_neq in Hne. unfold main, startup.
    rewrite Hne. reflexivity.
  - intros Hok Hno. unfold main, startup. rewrite Hok, Hno. reflexivity.
  - intros Hok Hyes.
    destruct (startup env) as [d|s0] eqn:Hstart.
    + unfold startup in Hstart. rewrite Hok, Hyes in Hstart. discriminate.
    + destruct (main_started env s0 Hstart) as (e & rs & s & Hrun & _). eauto.
Qed.

(** X18. A request without the two budget fields is resolved with the
    configured defaults: the default time budget as it is, the default
    redirect budget converted to [int]. *)
Theorem expand_url_handler_defaults request v s :
  JsonValue_parse (payload request) = Some v ->
  ValueExists v "url" = true ->
  ValueExists v "max_time_ms" = false ->
  ValueExists v "max_redirects" = false ->
  (expand_url_handler indeterminate request s).2
  = (expand_url (mkOutput "" indeterminate) (GetString v "url")
       (default_max_time_ms s) (to_int (default_max_redirects s)) s).2.
Proof.
  intros Hv Hurl Ht Hr.
  rewrite (expand_url_handler_resolves indeterminate request v s Hv Hurl).
  cbv zeta. cbn [snd]. unfold time_budget, redirect_budget.
  rewrite Ht, Hr. reflexivity.
Qed.

Lemma length_filter_result l :
  length (filter (fun l => is_result l = true) [l])
  = if is_result l then 1%nat else 0%nat.
Proof.
  rewrite filter_cons, filter_nil.
  destruct (is_result l); case_decide; try reflexivity; congruence.
Qed.

(** A resolution writes no result line. *)
Lemma expand_url_results out url t r s :
  results (expand_url out url t r s).2 = results s.
Proof.
  unfold results. rewrite expand_url_state. cbv zeta.
  rewrite set_request_options_state.
  destruct (code _ =? CURLE_OK); cbn [stdout stderr with_curl transferred
                                      to_stderr]; [reflexivity|].
  rewrite filter_app, length_app, length_filter_result. cbn [is_result]. lia.
Qed.

Lemma process_line_results line s :
  conversion_error line = None ->
  results (process_line indeterminate line s).2
  = (results s + length (option_list (line_url line)))%nat.
Proof.
  intros Hgood. unfold line_url.
  destruct (split_total line " " ltac:(discriminate)) as [parts Hparts].
  rewrite Hparts. destruct parts as [|url fields].
  - rewrite (process_line_empty indeterminate line s Hparts). cbn. lia.
  - revert Hgood. unfold conversion_error, process_line. rewrite Hparts.
    change (length (url :: fields) =? 0)%nat with false. cbv iota.
    cbv beta iota zeta delta [mbind M_bind mret M_ret gets Clock_now].
    change (nth 0 (url :: fields) "") with url.
    destruct (if (1 <? length (url :: fields))%nat then stoll _ else inr 0)
      as [e1|t0] eqn:Ht; [discriminate|].
    destruct (if (2 <? length (url :: fields))%nat then stoi _ else inr 0)
      as [e2|r0] eqn:Hr; [discriminate|]. intros _.
    assert (exists t, (if (1 <? length (url :: fields))%nat
                       then stoll (nth 1 (url :: fields) "")
                       else inr (default_max_time_ms s)) = inr t) as [t ->].
    { destruct (1 <? length (url :: fields))%nat; eauto. }
    assert (exists r, (if (2 <? length (url :: fields))%nat
                       then stoi (nth 2 (url :: fields) "")
                       else inr (to_int (default_max_redirects s))) = inr r)
      as [r ->].
    { destruct (2 <? length (url :: fields))%nat; eauto. }
    pose proof (expand_url_results (mkOutput "" indeterminate) url t r s)
      as Hres.
    destruct (expand_url (mkOutput "" indeterminate) url t r s)
      as [[res out] s1].
    cbn [fst snd] in *. rewrite <- Hres.
    destruct (res =? CURLE_OK); unfold results, printf, fprintf_stderr, modify;
      cbn [snd stdout stderr to_stdout to_stderr];
      rewrite filter_app, length_app, length_filter_result; cbn; lia.
Qed.

Lemma read_commands_results lines s :
  Forall (fun line => conversion_error line = None) lines ->
  results (read_commands indeterminate lines s).2
  = (results s + length (omap line_url lines))%nat.
Proof.
  intros Hgood. revert s.
  induction Hgood as [|line rest Hline _ IH]; intros s; [cbn; lia|].
  cbn [read_commands]. run_M.
  pose proof (process_line_results line s Hline) as Hres.
  destruct (process_line_good indeterminate line s Hline) as (s1 & Hstep & _).
  rewrite Hstep in *. cbn [snd] in Hres.
  rewrite IH, Hres.
  change (omap line_url (line :: rest))
    with (match line_url line with
          | Some url => url :: omap line_url rest
          | None => omap line_url rest
          end).
  destruct (line_url line); cbn; lia.
Qed.

(** X17. In batch mode, when the numeric fields of every line convert,
    the process writes exactly one result line, on standard output or on
    standard error, for each line that has fields, and none for the
    others. *)
Theorem main_batch_results env s0 :
  startup env = inr s0 ->
  getenv env "AWS_LAMBDA_FUNCTION_NAME" = None ->
  Forall (fun line => conversion_error line = None) (stdin env) ->
  exists e s,
    main indeterminate env = started e [] s
    /\ results s = length (omap line_url (stdin env)).
Proof.
  intros Hstart Hmode Hgood. unfold main. rewrite Hstart, Hmode.
  pose proof (read_commands_results (stdin env) (configure_handle s0).2 Hgood)
    as Hres.
  destruct (read_commands _ _ _) as [e s]. exists e, s.
  split; [reflexivity|]. cbn [snd] in Hres. rewrite Hres.
  unfold results. cbn [stdout stderr configure_handle].
  replace (stdout (configure_handle s0).2) with (stdout s0) by reflexivity.
  replace (stderr (configure_handle s0).2) with (stderr s0) by reflexivity.
  unfold startup in Hstart.
  destruct (negb (curl_global_init env =? CURLE_OK)); [discriminate|].
  destruct (negb (curl_easy_init_succeeds env)); [discriminate|].
  injection Hstart as <-. reflexivity.
Qed.

(** The fields after the third do not count. *)
Lemma process_line_parts line line' parts parts' s :
  split line " " = Some parts ->
  split line' " " = Some parts' ->
  take 3 parts = take 3 parts' ->
  process_line indeterminate line s = process_line indeterminate line' s.
Proof.
  intros Hp Hp' Htake. unfold process_line. rewrite Hp, Hp'.
  assert (Hlen : forall n, (n < 3)%nat ->
            (n <? length parts)%nat = (n <? length parts')%nat).
  { intros n Hn. pose proof (f_equal length Htake) as Hl.
    rewrite !length_take in Hl.
    destruct (n <? length parts)%nat eqn:E1,
             (n <? length parts')%nat eqn:E2; try reflexivity;
      [apply Nat.ltb_lt in E1; apply Nat.ltb_ge in E2
      |apply Nat.ltb_ge in E1; apply Nat.ltb_lt in E2]; lia. }
  assert (Hnth : forall n, (n < 3)%nat -> nth n parts "" = nth n parts' "").
  { intros n Hn.
    rewrite <- (take_drop 3 parts), <- (take_drop 3 parts'), Htake.
    destruct (decide (n < length (take 3 parts'))%nat) as [Hin|Hout].
    - rewrite !app_nth1 by exact Hin. reflexivity.
    - pose proof (f_equal length Htake) as Hl. rewrite !length_take in Hl.
      rewrite length_take in Hout.
      rewrite !nth_overflow; [reflexivity | |];
        rewrite length_app, length_take, length_drop; lia. }
  assert (Hempty : (length parts =? 0)%nat = (length parts' =? 0)%nat).
  { pose proof (Hlen 0%nat ltac:(lia)) as H0.
    destruct parts, parts'; try reflexivity; discriminate H0. }
  rewrite Hempty, (Hlen 1%nat), (Hlen 2%nat), (Hnth 0%nat), (Hnth 1%nat),
    (Hnth 2%nat) by lia.
  reflexivity.
Qed.

(** X19. A batch line is read by its first three fields: two lines whose
    first three fields are the same are processed in the same way,
    whatever comes after. *)
Theorem process_line_first_three_fields line line' s :
  take 3 <$> split line " " = take 3 <$> split line' " " ->
  process_line indeterminate line s = process_line indeterminate line' s.
Proof.
  destruct (split_total line " " ltac:(discriminate)) as [parts Hp].
  destruct (split_total line' " " ltac:(discriminate)) as [parts' Hp'].
  rewrite Hp, Hp'. cbn. intros [= Htake].
  exact (process_line_parts line line' parts parts' s Hp Hp' Htake).
Qed.

End RunsMore.

Lemma main_lambda_witness :
  exists responses s,
    main (lib := chain_transport example_network) (json := example_parser)
      false
      (lambda_environment
         [mkRequest "request for r3"; mkRequest "not json"; mkRequest "{}";
          mkRequest "request for r3 again"])
    = started (exit_status 0) responses s
    /\ Forall2
         (fun request response =>
            match request_url (json := example_parser) request with
            | Some _ =>
                exists body, response = success body "application/json"
            | None => exists message, response = failure message "InvalidJSON"
            end)
         [mkRequest "request for r3"; mkRequest "not json"; mkRequest "{}";
          mkRequest "request for r3 again"]
         responses
    /\ transfers s = ["http://example.test/r3"; "http://example.test/r3"].
Proof.
  apply (main_lambda (lib := chain_transport example_network)
           (json := example_parser) false
           (lambda_environment
              [mkRequest "request for r3"; mkRequest "not json";
               mkRequest "{}"; mkRequest "request for r3 again"])
           (mkState curl_easy_init 500 5 500 0 [] [] []) "expander"
           eq_refl eq_refl).
Defined.


Lemma main_startup_failure_witness :
  main (lib := chain_transport example_network) (json := example_parser) false
    (mkEnvironment (fun _ => None) CURLE_FAILED_INIT true 0
       ["http://example.test/r3"] [])
  = not_started (global_init_failed CURLE_FAILED_INIT "Failed initialization").
Proof.
  apply (main_startup_failure (lib := chain_transport example_network)
           (json := example_parser) false
           (mkEnvironment (fun _ => None) CURLE_FAILED_INIT true 0
              ["http://example.test/r3"] [])).
  discriminate.
Defined.

Lemma main_batch_results_witness :
  exists e s,
    main (lib := chain_transport example_network) (json := example_parser)
      false
      (batch_environment
         ["http://example.test/r3 100 1"; "   ";
          "http://example.test/final"])
    = started e [] s
    /\ results s = 2%nat.
Proof.
  apply (main_batch_results (lib := chain_transport example_network)
           (json := example_parser) false
           (batch_environment
              ["http://example.test/r3 100 1"; "   ";
               "http://example.test/final"])
           (mkState curl_easy_init 500 5 500 0 [] [] [])
           eq_refl eq_refl).
  repeat constructor.
Defined.

Lemma expand_url_handler_defaults_witness :
  opt_maxredirs
  <$> performed
        (expand_url_handler (lib := chain_transport example_network)
           (json := fixed_parser (Some url_only_view)) false
           (mkRequest "") example_session).2
  = [5]
  /\ opt_timeout_ms
     <$> performed
           (expand_url_handler (lib := chain_transport example_network)
              (json := fixed_parser (Some url_only_view)) false
              (mkRequest "") example_session).2
     = [500].
Proof.
  rewrite (expand_url_handler_defaults
             (lib := chain_transport example_network)
             (json := fixed_parser (Some url_only_view)) false
             (mkRequest "") url_only_view example_session
             eq_refl eq_refl eq_refl eq_refl).
  rewrite expand_url_performed, set_request_options_state.
  split; reflexivity.
Defined.

Lemma process_line_first_three_fields_witness :
  process_line (lib := chain_transport example_network) false
    "http://example.test/r3 100 1 and more" example_session
  = process_line (lib := chain_transport example_network) false
      "http://example.test/r3  100 1" example_session.
Proof.
  apply (process_line_first_three_fields
           (lib := chain_transport example_network) false).
  reflexivity.
Defined.
